(** * Gubernator gRPC instance (grpc.go): routing, membership rebuild, startup

    A shallow embedding of [src/golang/grpc.go].  The handlers of the
    [Instance] are state transformers over a [World] that holds the
    instance itself, the environment it talks to (network, peers,
    membership mechanism) and a ghost log of the calls made to its
    collaborators, in program order.  The collaborators whose code lives
    outside grpc.go (the bucket algorithms, the peer picker, the peer
    client, the cache, metrics and membership mechanism) are parameters of
    the development.

    Conventions:
    - a call runs alone: [peerMutex] and the cache lock are not modelled;
    - the two goroutines of [Start] race for the channel [errs]: an
      oracle tells whether [server.Serve] has returned first and how far
      the probing goroutine had come by then; what that goroutine does
      after [Start] has read the channel is not part of the run;
    - a collaborator's Go result [(v, err)] is a sum, so a nil value with
      a nil error is not a possible answer;
    - a Go [int] is a [Z]; the one narrowing conversion, [int32(...)], is
      written out. *)

From Stdlib Require Import ZArith Lia.
From stdpp Require Import base option list strings pretty gmap.

Local Open Scope string_scope.
Local Open Scope list_scope.
Local Open Scope Z_scope.

(** ** Constants (grpc.go, lines 19-24) *)

Definition maxRequestSize : Z := 1 * 1024 * 1024.
Definition maxBatchSize : Z := 1000.
Definition Healthy : string := "healthy".
Definition UnHealthy : string := "unhealthy".

(** ** Data model *)

(** A Go [error], represented by the text its [Error()] method returns.
    A Go result pair [(v, err)] of a collaborator is a sum: [inl v] when
    [err == nil], [inr e] otherwise. *)
Definition error : Type := string.

(** [errors.Wrap(err, msg)] *)
Definition Wrap (err : error) (msg : string) : error := msg +:+ ": " +:+ err.

(** gRPC status codes used by this file. *)
Inductive Code := OutOfRange.

(** The error of [status.Errorf(code, ...)]. *)
Record StatusError := { code : Code; message : string }.

(** The protobuf enum [Algorithm] is an int32.  Its generated constants
    are not part of grpc.go, which only compares against them, so their
    values are left open. *)
Class AlgorithmEnum := {
  Algorithm_TOKEN_BUCKET : Z;
  Algorithm_LEAKY_BUCKET : Z
}.

(** [Request]: the fields grpc.go reads, and the algorithm-specific
    parameters it passes through untouched. *)
Record Request := {
  Namespace : string;
  UniqueKey : string;
  Algorithm : Z;
  Params : list Z
}.

(** [RateLimit]: the decision fields, the per-item error and the metadata
    map.  A nil Go map is the empty map. *)
Record RateLimit := {
  Limit : Z;
  Remaining : Z;
  ResetTime : Z;
  Error : string;
  Metadata : gmap string string
}.

(** [&RateLimit{Error: msg}] *)
Definition RateLimit_Error (msg : string) : RateLimit :=
  {| Limit := 0; Remaining := 0; ResetTime := 0; Error := msg; Metadata := ∅ |}.

(** [rl.Metadata = m] *)
Definition set_Metadata (m : gmap string string) (rl : RateLimit) : RateLimit :=
  {| Limit := Limit rl; Remaining := Remaining rl; ResetTime := ResetTime rl;
     Error := Error rl; Metadata := m |}.

Record Requests := { Requests_Requests : list Request }.
Record RateLimits := { RateLimits_RateLimits : list RateLimit }.
Record GetPeerRateLimitsReq := { GetPeerRateLimitsReq_Requests : list Request }.
Record GetPeerRateLimitsResp := { GetPeerRateLimitsResp_RateLimits : list RateLimit }.
Record UpdatePeerGlobalsReq : Set := { }.
Record UpdatePeerGlobalsResp : Set := { }.
Record HealthCheckReq : Set := { }.
Record HealthCheckResp := { Status : string; Message : string; PeerCount : Z }.
Record PeerConfig := { Peers : list string }.

(** [PeerClient]: the handle of one cluster member. *)
Record PeerClient := { host : string; isOwner : bool }.

(** [peerInfo.isOwner = true] *)
Definition set_isOwner (b : bool) (c : PeerClient) : PeerClient :=
  {| host := host c; isOwner := b |}.

(** The [PeerPicker] interface, as grpc.go uses it. *)
Module PeerPicker.
Class t (P : Type) := {
  New : P → P;
  Add : P → PeerClient → P;
  Size : P → Z;
  GetPeer : P → string → option PeerClient;
  Get : P → string → PeerClient + error
}.
End PeerPicker.

(** Calls to collaborators, as recorded in the ghost log. *)
Inductive Call :=
| CallPickerGet (key : string)
| CallGetRateLimit (r : Request)
| CallPeerGetPeerRateLimit (peer : string) (r : Request)
| CallNewPeerClient (peer : string) (ok : bool)
| CallCacheStart
| CallMetricsStart
| CallServe
| CallHealthCheck (ok : bool)
| CallSleep (d : Z)
| CallPeerSyncerStart (address : string).

(** [int32(x)]: Go's conversion of an [int] to [int32] keeps the low 32
    bits, read as a signed number. *)
Definition int32 (x : Z) : Z := (x + 2 ^ 31) `mod` 2 ^ 32 - 2 ^ 31.

(** [strings.Join(l, sep)] *)
Fixpoint Join (l : list string) (sep : string) : string :=
  match l with
  | [] => ""
  | [x] => x
  | x :: rest => x +:+ sep +:+ Join rest sep
  end.

(** [sub] occurs in [s]. *)
Definition contains (s sub : string) : Prop :=
  ∃ pre post, s = pre +:+ sub +:+ post.

(** Collaborators defined outside grpc.go, over a cache of type [CacheT]
    and an environment (network, peers, membership mechanism) of type
    [Env].  The bucket algorithms work on the cache they are handed; the
    others act on the environment. *)
Class Collaborators (CacheT Env : Type) := {
  tokenBucket : CacheT → Request → (RateLimit + error) * CacheT;
  leakyBucket : CacheT → Request → (RateLimit + error) * CacheT;
  PeerClient_GetPeerRateLimit :
    PeerClient → Request → Env → (RateLimit + error) * Env;
  NewPeerClient : string → Env → (PeerClient + error) * Env;
  Cache_Start : CacheT → option error * CacheT;
  Metrics_Start : Env → option error * Env;
  PeerSyncer_Start : string → Env → option error * Env;
  (** One loopback probe of [Start]: [grpc.Dial] of the listener address
      followed by [client.HealthCheck] under a 500ms timeout. *)
  loopback_HealthCheck : Env → option error * Env;
  (** What the goroutine running [server.Serve] has sent on [errs] by the
      time the probe's result is there: [None] while it is still serving,
      [Some r] when [Serve] has returned [r] first. *)
  Serve_returned : Env → option (option error);
  (** When [Serve] has returned first: the number of attempts the probing
      goroutine had finished by the time [Start] read [Serve]'s result
      from [errs]. *)
  Serve_returned_after : Env → nat
}.

(** ** The instance and its handlers *)

Section Instance.

Context {CacheT Env P : Type}.
Context `{!AlgorithmEnum} `{!PeerPicker.t P} `{!Collaborators CacheT Env}.

Record Config := {
  Picker : P;
  AdvertiseAddress : string;
  Cache : CacheT
}.

Record Instance := {
  health : HealthCheckResp;
  conf : Config
}.

Record World := {
  inst : Instance;
  env : Env;
  calls : list Call
}.

Definition set_Cache (c : CacheT) (w : World) : World :=
  {| inst := {| health := health (inst w);
                conf := {| Picker := Picker (conf (inst w));
                           AdvertiseAddress := AdvertiseAddress (conf (inst w));
                           Cache := c |} |};
     env := env w; calls := calls w |}.

Definition set_Picker_health (p : P) (h : HealthCheckResp) (w : World) : World :=
  {| inst := {| health := h;
                conf := {| Picker := p;
                           AdvertiseAddress := AdvertiseAddress (conf (inst w));
                           Cache := Cache (conf (inst w)) |} |};
     env := env w; calls := calls w |}.

Definition set_env (e : Env) (w : World) : World :=
  {| inst := inst w; env := e; calls := calls w |}.

(** ** A state monad over the world *)

Definition M (A : Type) : Type := World → A * World.

Definition ret {A} (a : A) : M A := λ w, (a, w).
Definition bind {A B} (m : M A) (k : A → M B) : M B :=
  λ w, let '(a, w') := m w in k a w'.

Notation "'do' x <- m ; k" := (bind m (λ x, k))
  (at level 10, x name, m at level 100, k at level 200).

(** Record one call in the ghost log. *)
Definition log (c : Call) : M unit :=
  λ w, (tt, {| inst := inst w; env := env w; calls := calls w ++ [c] |}).

(** Run a collaborator on the cache of the instance. *)
Definition on_cache {A} (f : CacheT → A * CacheT) : M A :=
  λ w, let '(a, c) := f (Cache (conf (inst w))) in (a, set_Cache c w).

(** Run a collaborator on the environment. *)
Definition on_env {A} (f : Env → A * Env) : M A :=
  λ w, let '(a, e) := f (env w) in (a, set_env e w).

(** Read the instance. *)
Definition self : M Instance := λ w, (inst w, w).

(** ** getRateLimit (lines 235-246) *)

(** The [switch] on [r.Algorithm], on the locked cache [c]. *)
Definition getRateLimit_switch (c : CacheT) (r : Request)
  : (RateLimit + error) * CacheT :=
  if decide (Algorithm r = Algorithm_TOKEN_BUCKET) then tokenBucket c r
  else if decide (Algorithm r = Algorithm_LEAKY_BUCKET) then leakyBucket c r
  else (inr ("invalid rate limit algorithm '" +:+ pretty (Algorithm r) +:+ "'"), c).

Definition getRateLimit (r : Request) : M (RateLimit + error) :=
  do _ <- log (CallGetRateLimit r);
  on_cache (λ c, getRateLimit_switch c r).

(** ** The loop shared by the two batch handlers

    [for _, req := range r.Requests { rl := body(req);
       resp.RateLimits = append(resp.RateLimits, rl) }] *)
Fixpoint range_append (body : Request → M RateLimit) (reqs : list Request)
    (resp : list RateLimit) : M (list RateLimit) :=
  match reqs with
  | [] => ret resp
  | req :: rest =>
      do rl <- body req;
      range_append body rest (resp ++ [rl])
  end.

(** ** GetRateLimits (lines 140-202) *)

(** [s.conf.Picker.Get(globalKey)] under the read lock. *)
Definition Picker_Get (globalKey : string) : M (PeerClient + error) :=
  do _ <- log (CallPickerGet globalKey);
  do s <- self;
  ret (PeerPicker.Get (Picker (conf s)) globalKey).

(** [peer.GetPeerRateLimit(ctx, req)] *)
Definition peer_GetPeerRateLimit (peer : PeerClient) (req : Request)
  : M (RateLimit + error) :=
  do _ <- log (CallPeerGetPeerRateLimit (host peer) req);
  on_env (PeerClient_GetPeerRateLimit peer req).

(** The body of the loop over [r.Requests]: every path ends at the label
    [NextRateLimit] with the [rl] that is appended there. *)
Definition GetRateLimits_body (req : Request) : M RateLimit :=
  let globalKey := Namespace req +:+ "_" +:+ UniqueKey req in
  if decide (String.length (UniqueKey req) = 0%nat) then
    ret (RateLimit_Error "field 'unique_key' cannot be empty")
  else if decide (String.length (Namespace req) = 0%nat) then
    ret (RateLimit_Error "field 'namespace' cannot be empty")
  else
    do found <- Picker_Get globalKey;
    match found with
    | inr err =>
        ret (RateLimit_Error
               ("while finding peer that owns rate limit '" +:+ globalKey
                +:+ "' - '" +:+ err +:+ "'"))
    | inl peer =>
        if isOwner peer then
          do res <- getRateLimit req;
          match res with
          | inr err =>
              ret (RateLimit_Error
                     ("while applying rate limit for '" +:+ globalKey
                      +:+ "' - '" +:+ err +:+ "'"))
          | inl rl => ret rl
          end
        else
          do res <- peer_GetPeerRateLimit peer req;
          let rl :=
            match res with
            | inr err =>
                RateLimit_Error
                  ("while fetching rate limit '" +:+ globalKey
                   +:+ "' from peer - '" +:+ err +:+ "'")
            | inl rl => rl
            end in
          ret (set_Metadata {[ "owner" := host peer ]} rl)
    end.

Definition GetRateLimits (r : Requests)
  : M (option RateLimits * option StatusError) :=
  if decide (Z.of_nat (length (Requests_Requests r)) > maxBatchSize) then
    ret (None,
         Some {| code := OutOfRange;
                 message := "Requests.RateLimits list too large; max size is '"
                            +:+ pretty maxBatchSize +:+ "'" |})
  else
    do rls <- range_append GetRateLimits_body (Requests_Requests r) [];
    ret (Some {| RateLimits_RateLimits := rls |}, None).

(** ** UpdatePeerGlobals (lines 204-207) *)

Definition UpdatePeerGlobals (r : UpdatePeerGlobalsReq)
  : M (option UpdatePeerGlobalsResp * option error) :=
  ret (None, None).

(** ** GetPeerRateLimits (lines 209-226) *)

Definition GetPeerRateLimits_body (req : Request) : M RateLimit :=
  do res <- getRateLimit req;
  match res with
  | inr err => ret (RateLimit_Error err)
  | inl rl => ret rl
  end.

Definition GetPeerRateLimits (r : GetPeerRateLimitsReq)
  : M (option GetPeerRateLimitsResp * option StatusError) :=
  if decide (Z.of_nat (length (GetPeerRateLimitsReq_Requests r)) > maxBatchSize) then
    ret (None,
         Some {| code := OutOfRange;
                 message := "'PeerRequest.rate_limits' list too large; max size is '"
                            +:+ pretty maxBatchSize +:+ "'" |})
  else
    do rls <- range_append GetPeerRateLimits_body (GetPeerRateLimitsReq_Requests r) [];
    ret (Some {| GetPeerRateLimitsResp_RateLimits := rls |}, None).

(** ** HealthCheck (lines 229-233) *)

Definition HealthCheck (r : HealthCheckReq)
  : M (option HealthCheckResp * option error) :=
  do s <- self;
  ret (Some (health s), None).


(** ** updatePeers (lines 249-288) *)

(** [NewPeerClient(s.conf.Behaviors, peer)] *)
Definition connect (peer : string) : M (PeerClient + error) :=
  do res <- on_env (NewPeerClient peer);
  do _ <- log (CallNewPeerClient peer (match res with inl _ => true | inr _ => false end));
  ret res.

(** The handle that goes into the new picker for the address [peer] once
    [NewPeerClient] has returned [peerInfo]: the one the current picker
    already has for that address, if any, marked as owner when the address
    is the advertise address of this instance.  [PeerClient]s are values
    here: a handle reused from the current picker is copied. *)
Definition updatePeers_handle (s : Instance) (peer : string)
    (peerInfo : PeerClient) : PeerClient :=
  let peerInfo :=
    match PeerPicker.GetPeer (Picker (conf s)) peer with
    | Some info => info
    | None => peerInfo
    end in
  if decide (peer = AdvertiseAddress (conf s))
  then set_isOwner true peerInfo else peerInfo.

(** The message appended to [errs] for an address that failed to connect. *)
Definition updatePeers_failure (peer : string) : string :=
  "failed to connect to peer '" +:+ peer +:+ "'; consistent hash is incomplete".

(** The loop over [conf.Peers], with the picker under construction and
    the failure messages collected so far. *)
Fixpoint updatePeers_loop (peers : list string) (picker : P) (errs : list string)
  : M (P * list string) :=
  match peers with
  | [] => ret (picker, errs)
  | peer :: rest =>
      do res <- connect peer;
      match res with
      | inr err =>
          updatePeers_loop rest picker (errs ++ [updatePeers_failure peer])
      | inl peerInfo =>
          do s <- self;
          updatePeers_loop rest
            (PeerPicker.Add picker (updatePeers_handle s peer peerInfo)) errs
      end
  end.

Definition set_Status (st : string) (h : HealthCheckResp) : HealthCheckResp :=
  {| Status := st; Message := Message h; PeerCount := PeerCount h |}.
Definition set_Message (m : string) (h : HealthCheckResp) : HealthCheckResp :=
  {| Status := Status h; Message := m; PeerCount := PeerCount h |}.
Definition set_PeerCount (n : Z) (h : HealthCheckResp) : HealthCheckResp :=
  {| Status := Status h; Message := Message h; PeerCount := n |}.

(** The assignments made under [peerMutex.Lock()]. *)
Definition updatePeers_commit (picker : P) (errs : list string) : M unit :=
  λ w,
    let h := set_Status Healthy (health (inst w)) in
    let h := if decide (length errs ≠ 0%nat)
             then set_Message (Join errs "|") (set_Status UnHealthy h)
             else h in
    let h := set_PeerCount (int32 (PeerPicker.Size picker)) h in
    (tt, set_Picker_health picker h w).

Definition updatePeers (c : PeerConfig) : M unit :=
  do s <- self;
  let picker := PeerPicker.New (Picker (conf s)) in
  do built <- updatePeers_loop (Peers c) picker [];
  updatePeers_commit built.1 built.2.

(** ** retry (lines 290-299) *)

(** [time.Sleep(d)] *)
Definition Sleep (d : Z) : M unit := log (CallSleep d).

(** The iterations of the [for] loop that remain, with the current value
    of the named result [err]. *)
Fixpoint retry_loop (remaining : nat) (d : Z) (callback : M (option error))
    (err : option error) : M (option error) :=
  match remaining with
  | O => ret err
  | S remaining' =>
      do err <- callback;
      match err with
      | None => ret None
      | Some _ =>
          do _ <- Sleep d;
          retry_loop remaining' d callback err
      end
  end.

Definition retry (attempts : Z) (d : Z) (callback : M (option error))
  : M (option error) :=
  retry_loop (Z.to_nat attempts) d callback None.

(** ** Start (lines 80-126) *)

(** [time.Millisecond], in nanoseconds. *)
Definition Millisecond : Z := 1000000.

(** The callback handed to [retry]: one loopback health probe. *)
Definition Start_probe : M (option error) :=
  do err <- on_env loopback_HealthCheck;
  do _ <- log (CallHealthCheck (match err with None => true | Some _ => false end));
  ret err.

(** The goroutine [go func() { errs <- retry(2, ...) }()] raced against
    the one running [server.Serve], and [err := <-errs], which takes the
    first value sent by either.  While the server keeps serving, the value
    is the one of [retry], run to its end.  When [Serve] has returned
    first, the value is the one of [Serve], and of the probing goroutine
    only the attempts it had finished by then have happened: the run of
    [retry] cut after that many attempts, which is [retry] with that many
    attempts.  The oracles are asked in the environment the whole run of
    [retry] ends in. *)
Definition Start_wait : M (option error) :=
  λ w,
    let probing := retry 2 (Millisecond * 500) Start_probe w in
    match Serve_returned (env probing.2) with
    | None => probing
    | Some served =>
        let finished :=
          Z.of_nat (Nat.min (Serve_returned_after (env probing.2)) 2) in
        (served, (retry finished (Millisecond * 500) Start_probe w).2)
    end.

Definition Start : M (option error) :=
  do _ <- log CallCacheStart;
  do err <- on_cache Cache_Start;
  match err with
  | Some e => ret (Some (Wrap e "failed to start cache"))
  | None =>
  do _ <- log CallMetricsStart;
  do err <- on_env Metrics_Start;
  match err with
  | Some e => ret (Some (Wrap e "failed to start metrics collector"))
  | None =>
  do _ <- log CallServe;
  do err <- Start_wait;
  match err with
  | Some e => ret (Some (Wrap e "while waiting for server to pass health check"))
  | None =>
  do s <- self;
  do _ <- log (CallPeerSyncerStart (AdvertiseAddress (conf s)));
  do err <- on_env (PeerSyncer_Start (AdvertiseAddress (conf s)));
  match err with
  | Some e => ret (Some (Wrap e "failed to sync configs with other peers"))
  | None => ret None
  end end end end.

(** ** Vocabulary of the statements *)

(** The world in which item [i] of a batch is handled: the one the loop
    has reached after the first [i] items. *)
Definition world_at (body : Request → M RateLimit) (reqs : list Request)
    (i : nat) (w : World) : World :=
  (range_append body (take i reqs) [] w).2.

(** A collaborator returned a non-nil error. *)
Definition returns_error {A} (res : A + error) : Prop :=
  match res with inr _ => True | inl _ => False end.

(** Item [req] fails when handled by [GetRateLimits] in the world [w]: it
    does not validate, or no peer is found for its key, or the local
    algorithm or the remote call returns an error. *)
Definition item_fails (w : World) (req : Request) : Prop :=
  UniqueKey req = "" ∨ Namespace req = "" ∨
  match PeerPicker.Get (Picker (conf (inst w)))
          (Namespace req +:+ "_" +:+ UniqueKey req) with
  | inr _ => True
  | inl peer =>
      if isOwner peer
      then returns_error (getRateLimit_switch (Cache (conf (inst w))) req).1
      else returns_error (PeerClient_GetPeerRateLimit peer req (env w)).1
  end.

(** The outcomes of [NewPeerClient] for the addresses of a membership
    list, connected in order from the environment [e]. *)
Fixpoint dial_all (peers : list string) (e : Env)
  : list (string * (PeerClient + error)) * Env :=
  match peers with
  | [] => ([], e)
  | peer :: rest =>
      let '(res, e1) := NewPeerClient peer e in
      let '(out, e2) := dial_all rest e1 in
      ((peer, res) :: out, e2)
  end.

(** The addresses that failed to connect, and the handles of those that
    connected. *)
Definition failed (out : list (string * (PeerClient + error))) : list string :=
  omap (λ o, match o.2 with inr _ => Some o.1 | inl _ => None end) out.

Definition connected (s : Instance) (out : list (string * (PeerClient + error)))
  : list PeerClient :=
  omap (λ o, match o.2 with
             | inl c => Some (updatePeers_handle s o.1 c)
             | inr _ => None
             end) out.

(** [w'] has the health, the picker and the advertise address of [w],
    the fields that only [updatePeers] and the constructor write, and its
    log of calls extends the one of [w]. *)
Definition keeps_instance (w w' : World) : Prop :=
  health (inst w') = health (inst w)
  ∧ Picker (conf (inst w')) = Picker (conf (inst w))
  ∧ AdvertiseAddress (conf (inst w')) = AdvertiseAddress (conf (inst w))
  ∧ ∃ cs, calls w' = calls w ++ cs.

(** The result [a] is the result [b], or [b] is a bare error and [a] that
    error in the words [GetRateLimits] uses for a failure of the local
    algorithm. *)
Definition same_or_wrapped (a b : RateLimit) : Prop :=
  a = b
  ∨ ∃ key err,
      b = RateLimit_Error err
      ∧ a = RateLimit_Error ("while applying rate limit for '" +:+ key
                             +:+ "' - '" +:+ err +:+ "'").

(** The outcomes of the loopback probes in a log of calls, in order. *)
Definition probes (cs : list Call) : list bool :=
  omap (λ c, match c with CallHealthCheck ok => Some ok | _ => None end) cs.

End Instance.

(** ** A small cluster to run the handlers on

    A picker that keeps its handles in a list and picks by the length of
    the key, a cache that counts the hits it has served, and an
    environment that is the script of the outcomes of the loopback probes
    still to come.  The peer at ["10.0.0.9:81"] is unreachable. *)

Module Example.

Definition ListPicker_Get (p : list PeerClient) (key : string)
  : PeerClient + error :=
  match p !! (String.length key `mod` length p)%nat with
  | Some c => inl c
  | None => inr "unable to pick a peer; pool is empty"
  end.

#[export] Instance ListPicker : PeerPicker.t (list PeerClient) := {|
  PeerPicker.New := λ _, [];
  PeerPicker.Add := λ p c, app p [c];
  PeerPicker.Size := λ p, Z.of_nat (length p);
  PeerPicker.GetPeer := λ p h, list_find (λ c, host c = h) p ≫= λ x, Some x.2;
  PeerPicker.Get := ListPicker_Get
|}.

Definition bucket (limit : Z) (c : Z) (r : Request) : (RateLimit + error) * Z :=
  if decide (limit ≤ c) then (inr "bucket store is full", c)
  else (inl {| Limit := limit; Remaining := limit - c - 1; ResetTime := 0;
               Error := ""; Metadata := ∅ |}, c + 1).

Definition remote (peer : PeerClient) (r : Request) (e : list (option error))
  : (RateLimit + error) * list (option error) :=
  if decide (host peer = "10.0.0.9:81") then (inr "connection refused", e)
  else (inl {| Limit := 5; Remaining := 4; ResetTime := 7; Error := "";
               Metadata := {[ "served-by" := "remote" ]} |}, e).

Definition dial (peer : string) (e : list (option error))
  : (PeerClient + error) * list (option error) :=
  if decide (peer = "10.0.0.9:81") then (inr "dial timeout", e)
  else (inl {| host := peer; isOwner := false |}, e).

Definition probe (e : list (option error))
  : option error * list (option error) :=
  match e with
  | [] => (Some "connection refused", [])
  | r :: rest => (r, rest)
  end.

#[export] Instance algorithms : AlgorithmEnum := {|
  Algorithm_TOKEN_BUCKET := 0;
  Algorithm_LEAKY_BUCKET := 1
|}.

#[export] Instance cluster : Collaborators Z (list (option error)) := {|
  tokenBucket := bucket 10;
  leakyBucket := bucket 20;
  PeerClient_GetPeerRateLimit := remote;
  NewPeerClient := dial;
  Cache_Start := λ c, (None, c);
  Metrics_Start := λ e, (None, e);
  PeerSyncer_Start := λ _ e, (None, e);
  loopback_HealthCheck := probe;
  Serve_returned := λ _, None;
  Serve_returned_after := λ _, 0%nat
|}.

Definition me : PeerClient := {| host := "10.0.0.1:81"; isOwner := true |}.
Definition other : PeerClient := {| host := "10.0.0.2:81"; isOwner := false |}.
Definition down : PeerClient := {| host := "10.0.0.9:81"; isOwner := false |}.

Definition world (picker : list PeerClient) (script : list (option error))
  : World :=
  {| inst := {| health := {| Status := ""; Message := ""; PeerCount := 0 |};
                conf := {| Picker := picker;
                           AdvertiseAddress := "10.0.0.1:81";
                           Cache := 0 |} |};
     env := script;
     calls := [] |}.

Definition item (ns key : string) : Request :=
  {| Namespace := ns; UniqueKey := key; Algorithm := 0; Params := [] |}.

(** A batch of four items for the picker [[me; other; down]]: the first is
    owned by this instance, the second by the unreachable peer, the third
    has no namespace and the fourth is owned by the other live peer. *)
Definition batch : Requests :=
  {| Requests_Requests :=
       [item "n" "a"; item "ns" "ab"; item "" "c"; item "ns" "a"] |}.

Definition members : PeerConfig :=
  {| Peers := ["10.0.0.1:81"; "10.0.0.9:81"; "10.0.0.2:81"] |}.

Definition live_members : PeerConfig :=
  {| Peers := ["10.0.0.1:81"; "10.0.0.2:81"] |}.

End Example.

(** ** Clusters whose startup can fail

    The example cluster with chosen outcomes for starting the cache, the
    metrics collector and the membership mechanism, and a chosen answer of
    the goroutine running [server.Serve], which in [cluster] comes before
    the first probe has finished and in [cluster_after] once [finished]
    attempts have. *)

Module Faulty.

Definition cluster_after (finished : nat)
    (cache_err metrics_err sync_err : option error)
    (served : option (option error))
  : Collaborators Z (list (option error)) := {|
  tokenBucket := Example.bucket 10;
  leakyBucket := Example.bucket 20;
  PeerClient_GetPeerRateLimit := Example.remote;
  NewPeerClient := Example.dial;
  Cache_Start := λ c, (cache_err, c);
  Metrics_Start := λ e, (metrics_err, e);
  PeerSyncer_Start := λ _ e, (sync_err, e);
  loopback_HealthCheck := Example.probe;
  Serve_returned := λ _, served;
  Serve_returned_after := λ _, finished
|}.

Definition cluster (cache_err metrics_err sync_err : option error)
    (served : option (option error))
  : Collaborators Z (list (option error)) := {|
  tokenBucket := Example.bucket 10;
  leakyBucket := Example.bucket 20;
  PeerClient_GetPeerRateLimit := Example.remote;
  NewPeerClient := Example.dial;
  Cache_Start := λ c, (cache_err, c);
  Metrics_Start := λ e, (metrics_err, e);
  PeerSyncer_Start := λ _ e, (sync_err, e);
  loopback_HealthCheck := Example.probe;
  Serve_returned := λ _, served;
  Serve_returned_after := λ _, 0%nat
|}.

End Faulty.

(** * Properties *)

Section Properties.

Context {CacheT Env P : Type}.
Context `{!AlgorithmEnum} `{!PeerPicker.t P} `{!Collaborators CacheT Env}.

Implicit Types (w : World (CacheT := CacheT) (Env := Env) (P := P)).
Implicit Types (req : Request) (reqs : list Request) (rl : RateLimit).

(** ** The batch loop *)

Lemma range_append_acc (body : Request → M RateLimit) reqs (acc : list RateLimit) w :
  range_append body reqs acc w =
  (acc ++ (range_append body reqs [] w).1, (range_append body reqs [] w).2).
Proof.
  revert acc w. induction reqs as [|req rest IH]; intros acc w; simpl.
  - unfold ret. by rewrite app_nil_r.
  - unfold bind. destruct (body req w) as [rl w1].
    rewrite (IH (acc ++ [rl])), (IH ([] ++ [rl])). simpl.
    by rewrite <- app_assoc.
Qed.

Lemma range_append_cons (body : Request → M RateLimit) req reqs w :
  range_append body (req :: reqs) [] w =
  ((body req w).1 :: (range_append body reqs [] (body req w).2).1,
   (range_append body reqs [] (body req w).2).2).
Proof.
  simpl. unfold bind. destruct (body req w) as [rl w1]. simpl.
  by rewrite range_append_acc.
Qed.

Lemma range_append_app (body : Request → M RateLimit) reqs1 reqs2 w :
  range_append body (reqs1 ++ reqs2) [] w =
  let r1 := range_append body reqs1 [] w in
  let r2 := range_append body reqs2 [] r1.2 in
  (r1.1 ++ r2.1, r2.2).
Proof.
  revert w. induction reqs1 as [|req rest IH]; intros w.
  - simpl. by destruct (range_append body reqs2 [] w).
  - rewrite <- app_comm_cons, !range_append_cons, IH. reflexivity.
Qed.

Lemma range_append_length (body : Request → M RateLimit) reqs w :
  length (range_append body reqs [] w).1 = length reqs.
Proof.
  revert w. induction reqs as [|req rest IH]; intros w; [done|].
  rewrite range_append_cons. simpl. by rewrite IH.
Qed.

(** Slot [i] of the output is what the body returns for item [i], run in
    the world the loop has reached by then; the next item starts where
    this one ends. *)
Lemma range_append_lookup (body : Request → M RateLimit) reqs w i req :
  reqs !! i = Some req →
  (range_append body reqs [] w).1 !! i
    = Some (body req (world_at body reqs i w)).1
  ∧ world_at body reqs (S i) w = (body req (world_at body reqs i w)).2.
Proof.
  intros Hi. unfold world_at. split.
  - rewrite <- (take_drop_middle reqs i req Hi) at 1.
    rewrite range_append_app. cbv zeta. rewrite range_append_cons. simpl.
    rewrite lookup_app_r; rewrite range_append_length, length_take_le;
      try (apply lookup_lt_Some in Hi; lia).
    by rewrite Nat.sub_diag.
  - rewrite (take_S_r _ _ _ Hi), range_append_app. cbv zeta.
    by rewrite range_append_cons.
Qed.

(** ** The body of [GetRateLimits] *)

Lemma length_zero_empty (s : string) : String.length s = 0%nat ↔ s = "".
Proof. destruct s; simpl; split; congruence. Qed.

Ltac run :=
  unfold GetRateLimits_body, GetPeerRateLimits_body, Picker_Get, getRateLimit,
    peer_GetPeerRateLimit, bind, ret, log, on_cache, on_env, self; simpl.

Lemma body_unique_key_empty req w :
  UniqueKey req = "" →
  GetRateLimits_body req w
    = (RateLimit_Error "field 'unique_key' cannot be empty", w).
Proof.
  intros Hk. unfold GetRateLimits_body.
  destruct (decide _) as [|Hn]; [done|].
  by rewrite length_zero_empty in Hn.
Qed.

Lemma body_namespace_empty req w :
  UniqueKey req ≠ "" → Namespace req = "" →
  GetRateLimits_body req w
    = (RateLimit_Error "field 'namespace' cannot be empty", w).
Proof.
  intros Hk Hns. unfold GetRateLimits_body.
  destruct (decide _) as [He|_]; [by rewrite length_zero_empty in He|].
  destruct (decide _) as [|Hn]; [done|].
  by rewrite length_zero_empty in Hn.
Qed.

(** A valid item: the picker is asked for the owner of its key, and what
    happens next depends on the answer. *)
Lemma body_valid req w :
  UniqueKey req ≠ "" → Namespace req ≠ "" →
  let key := Namespace req +:+ "_" +:+ UniqueKey req in
  let w1 := (log (CallPickerGet key) w).2 in
  GetRateLimits_body req w =
  match PeerPicker.Get (Picker (conf (inst w))) key with
  | inr err =>
      (RateLimit_Error ("while finding peer that owns rate limit '" +:+ key
                        +:+ "' - '" +:+ err +:+ "'"), w1)
  | inl peer =>
      if isOwner peer then
        let res := getRateLimit req w1 in
        (match res.1 with
         | inr err => RateLimit_Error ("while applying rate limit for '" +:+ key
                                       +:+ "' - '" +:+ err +:+ "'")
         | inl rl => rl
         end, res.2)
      else
        let res := peer_GetPeerRateLimit peer req w1 in
        (set_Metadata {[ "owner" := host peer ]}
           match res.1 with
           | inr err => RateLimit_Error ("while fetching rate limit '" +:+ key
                                         +:+ "' from peer - '" +:+ err +:+ "'")
           | inl rl => rl
           end, res.2)
  end.
Proof.
  intros Hk Hns. unfold GetRateLimits_body.
  destruct (decide _) as [He|_]; [by rewrite length_zero_empty in He|].
  destruct (decide _) as [He|_]; [by rewrite length_zero_empty in He|].
  unfold Picker_Get, bind, ret, self, log; simpl.
  destruct (PeerPicker.Get _ _) as [peer|err]; [|done].
  destruct (isOwner peer).
  - destruct (getRateLimit req _) as [[rl|err] w2]; done.
  - destruct (peer_GetPeerRateLimit peer req _) as [[rl|err] w2]; done.
Qed.

Lemma getRateLimit_run req w :
  let res := getRateLimit_switch (Cache (conf (inst w))) req in
  (getRateLimit req w).1 = res.1
  ∧ Cache (conf (inst (getRateLimit req w).2)) = res.2
  ∧ Picker (conf (inst (getRateLimit req w).2)) = Picker (conf (inst w))
  ∧ env (getRateLimit req w).2 = env w
  ∧ calls (getRateLimit req w).2 = calls w ++ [CallGetRateLimit req].
Proof.
  run. by destruct (getRateLimit_switch _ _).
Qed.

Lemma peer_GetPeerRateLimit_run peer req w :
  let res := PeerClient_GetPeerRateLimit peer req (env w) in
  (peer_GetPeerRateLimit peer req w).1 = res.1
  ∧ env (peer_GetPeerRateLimit peer req w).2 = res.2
  ∧ inst (peer_GetPeerRateLimit peer req w).2 = inst w
  ∧ calls (peer_GetPeerRateLimit peer req w).2
    = calls w ++ [CallPeerGetPeerRateLimit (host peer) req].
Proof.
  run. by destruct (PeerClient_GetPeerRateLimit _ _ _).
Qed.

(** A failing item gets a non-empty error string. *)
Lemma body_failure_has_error req w :
  item_fails w req → Error (GetRateLimits_body req w).1 ≠ "".
Proof.
  intros Hf.
  destruct (decide (UniqueKey req = "")) as [Hk|Hk];
    [by rewrite body_unique_key_empty|].
  destruct (decide (Namespace req = "")) as [Hns|Hns];
    [by rewrite body_namespace_empty|].
  rewrite body_valid by done. cbv zeta.
  destruct Hf as [?|[?|Hf]]; [done..|].
  destruct (PeerPicker.Get _ _) as [peer|err]; [|done].
  destruct (isOwner peer); cbn [fst snd].
  - destruct (getRateLimit_run req (log (CallPickerGet
      (Namespace req +:+ "_" +:+ UniqueKey req)) w).2) as (-> & _).
    simpl. by destruct (getRateLimit_switch _ _).1.
  - destruct (peer_GetPeerRateLimit_run peer req (log (CallPickerGet
      (Namespace req +:+ "_" +:+ UniqueKey req)) w).2) as (-> & _).
    simpl. by destruct (PeerClient_GetPeerRateLimit _ _ _).1.
Qed.

(** Handling an item leaves the picker of the instance in place. *)
Lemma body_Picker req w :
  Picker (conf (inst (GetRateLimits_body req w).2)) = Picker (conf (inst w)).
Proof.
  destruct (decide (UniqueKey req = "")) as [Hk|Hk];
    [by rewrite body_unique_key_empty|].
  destruct (decide (Namespace req = "")) as [Hns|Hns];
    [by rewrite body_namespace_empty|].
  rewrite body_valid by done. cbv zeta.
  destruct (PeerPicker.Get _ _) as [peer|err]; [|done].
  destruct (isOwner peer); cbn [fst snd].
  - by destruct (getRateLimit_run req (log (CallPickerGet
      (Namespace req +:+ "_" +:+ UniqueKey req)) w).2) as (_ & _ & -> & _).
  - by destruct (peer_GetPeerRateLimit_run peer req (log (CallPickerGet
      (Namespace req +:+ "_" +:+ UniqueKey req)) w).2) as (_ & _ & -> & _).
Qed.

Lemma world_at_Picker reqs i w :
  Picker (conf (inst (world_at GetRateLimits_body reqs i w)))
    = Picker (conf (inst w)).
Proof.
  unfold world_at. generalize (take i reqs). clear reqs i. intros reqs.
  revert w. induction reqs as [|req rest IH]; intros w; [done|].
  rewrite range_append_cons. cbn [snd]. by rewrite IH, body_Picker.
Qed.

(** ** Batches within the size limit *)

Lemma GetRateLimits_accepted (r : Requests) w :
  Z.of_nat (length (Requests_Requests r)) ≤ maxBatchSize →
  GetRateLimits r w =
  let res := range_append GetRateLimits_body (Requests_Requests r) [] w in
  (Some {| RateLimits_RateLimits := res.1 |}, None, res.2).
Proof.
  intros Hlen. unfold GetRateLimits.
  destruct (decide _) as [|_]; [lia|].
  unfold bind, ret. by destruct (range_append _ _ _ _).
Qed.

Lemma GetPeerRateLimits_accepted (r : GetPeerRateLimitsReq) w :
  Z.of_nat (length (GetPeerRateLimitsReq_Requests r)) ≤ maxBatchSize →
  GetPeerRateLimits r w =
  let res := range_append GetPeerRateLimits_body
               (GetPeerRateLimitsReq_Requests r) [] w in
  (Some {| GetPeerRateLimitsResp_RateLimits := res.1 |}, None, res.2).
Proof.
  intros Hlen. unfold GetPeerRateLimits.
  destruct (decide _) as [|_]; [lia|].
  unfold bind, ret. by destruct (range_append _ _ _ _).
Qed.

(** C1: a batch of at most [maxBatchSize] items is answered with a nil
    error and one result per item, in the order of the items: slot [i]
    holds what the loop body returned for item [i].  An item that fails
    validation, routing, the local algorithm or the remote call shows only
    as a non-empty [Error] in its own slot. *)
Theorem GetRateLimits_one_result_per_item (r : Requests) w :
  Z.of_nat (length (Requests_Requests r)) ≤ maxBatchSize →
  ∃ rls w',
    GetRateLimits r w = (Some {| RateLimits_RateLimits := rls |}, None, w')
    ∧ length rls = length (Requests_Requests r)
    ∧ ∀ i req, Requests_Requests r !! i = Some req →
        let wi := world_at GetRateLimits_body (Requests_Requests r) i w in
        ∃ rl, rls !! i = Some rl
              ∧ rl = (GetRateLimits_body req wi).1
              ∧ (item_fails wi req → Error rl ≠ "").
Proof.
  intros Hlen. rewrite GetRateLimits_accepted by done. cbv zeta.
  eexists _, _. split; [reflexivity|].
  split; [apply range_append_length|].
  intros i req Hi.
  destruct (range_append_lookup GetRateLimits_body _ w i req Hi) as [Hrl _].
  eexists. split; [exact Hrl|]. split; [done|].
  apply body_failure_has_error.
Qed.

(** The slot of item [i] and the world the item leaves behind. *)
Lemma GetRateLimits_slot (r : Requests) w i req :
  Z.of_nat (length (Requests_Requests r)) ≤ maxBatchSize →
  Requests_Requests r !! i = Some req →
  let wi := world_at GetRateLimits_body (Requests_Requests r) i w in
  ∃ rls w',
    GetRateLimits r w = (Some {| RateLimits_RateLimits := rls |}, None, w')
    ∧ rls !! i = Some (GetRateLimits_body req wi).1
    ∧ world_at GetRateLimits_body (Requests_Requests r) (S i) w
      = (GetRateLimits_body req wi).2.
Proof.
  intros Hlen Hi wi. rewrite GetRateLimits_accepted by done. cbv zeta.
  destruct (range_append_lookup GetRateLimits_body _ w i req Hi) as [Hrl Hw].
  eexists _, _. split; [reflexivity|]. by split.
Qed.

(** C6: an item with an empty [unique_key] or an empty [namespace] gets a
    result whose error names the missing field, [unique_key] first, and
    handling it leaves the world as it was: the picker, the local algorithm
    and the peers are not called for it. *)
Theorem GetRateLimits_rejects_empty_fields (r : Requests) w i req :
  Z.of_nat (length (Requests_Requests r)) ≤ maxBatchSize →
  Requests_Requests r !! i = Some req →
  UniqueKey req = "" ∨ Namespace req = "" →
  let wi := world_at GetRateLimits_body (Requests_Requests r) i w in
  let wi' := world_at GetRateLimits_body (Requests_Requests r) (S i) w in
  ∃ rls w' rl,
    GetRateLimits r w = (Some {| RateLimits_RateLimits := rls |}, None, w')
    ∧ rls !! i = Some rl
    ∧ Error rl ≠ ""
    ∧ (UniqueKey req = "" →
       rl = RateLimit_Error "field 'unique_key' cannot be empty")
    ∧ (UniqueKey req ≠ "" →
       rl = RateLimit_Error "field 'namespace' cannot be empty")
    ∧ wi' = wi
    ∧ calls wi' = calls wi.
Proof.
  intros Hlen Hi Hempty wi wi'.
  destruct (GetRateLimits_slot r w i req Hlen Hi) as (rls & w' & Hrun & Hrl & Hw).
  exists rls, w', (GetRateLimits_body req wi).1.
  split; [done|]. split; [done|]. subst wi'. rewrite Hw. fold wi.
  destruct (decide (UniqueKey req = "")) as [Hk|Hk].
  - rewrite body_unique_key_empty by done. simpl. by repeat split.
  - destruct Hempty as [?|Hns]; [done|].
    rewrite body_namespace_empty by done. simpl. by repeat split.
Qed.

(** C4: a valid item whose key the picker resolves to a handle with
    [isOwner] set is served by [getRateLimit]: the result and the cache
    are those the algorithm gives on the cache of the instance, and no
    peer is called.  One resolved to another peer is fetched from that
    peer: the result and the environment are those the call of the peer
    gives, the cache is not touched, and the result names the peer under
    the metadata key [owner].  A locally served result is the one the
    algorithm produced, so it carries an [owner] entry only if the
    algorithm put one there. *)
Theorem GetRateLimits_routes_by_owner (r : Requests) w i req peer :
  Z.of_nat (length (Requests_Requests r)) ≤ maxBatchSize →
  Requests_Requests r !! i = Some req →
  UniqueKey req ≠ "" → Namespace req ≠ "" →
  let wi := world_at GetRateLimits_body (Requests_Requests r) i w in
  let wi' := world_at GetRateLimits_body (Requests_Requests r) (S i) w in
  let key := Namespace req +:+ "_" +:+ UniqueKey req in
  PeerPicker.Get (Picker (conf (inst wi))) key = inl peer →
  ∃ rls w' rl,
    GetRateLimits r w = (Some {| RateLimits_RateLimits := rls |}, None, w')
    ∧ rls !! i = Some rl
    ∧ (isOwner peer = true →
       let res := getRateLimit_switch (Cache (conf (inst wi))) req in
       calls wi' = calls wi ++ [CallPickerGet key; CallGetRateLimit req]
       ∧ env wi' = env wi
       ∧ Cache (conf (inst wi')) = res.2
       ∧ rl = match res.1 with
              | inl out => out
              | inr err =>
                  RateLimit_Error ("while applying rate limit for '" +:+ key
                                   +:+ "' - '" +:+ err +:+ "'")
              end
       ∧ ((∀ out, res.1 = inl out → Metadata out !! "owner" = None) →
          Metadata rl !! "owner" = None))
    ∧ (isOwner peer = false →
       let res := PeerClient_GetPeerRateLimit peer req (env wi) in
       calls wi' = calls wi
                   ++ [CallPickerGet key;
                       CallPeerGetPeerRateLimit (host peer) req]
       ∧ env wi' = res.2
       ∧ Cache (conf (inst wi')) = Cache (conf (inst wi))
       ∧ rl = set_Metadata {[ "owner" := host peer ]}
                match res.1 with
                | inl out => out
                | inr err =>
                    RateLimit_Error ("while fetching rate limit '" +:+ key
                                     +:+ "' from peer - '" +:+ err +:+ "'")
                end
       ∧ Metadata rl !! "owner" = Some (host peer)).
Proof.
  intros Hlen Hi Hk Hns wi wi' key Hget.
  destruct (GetRateLimits_slot r w i req Hlen Hi) as (rls & w' & Hrun & Hrl & Hw).
  exists rls, w', (GetRateLimits_body req wi).1.
  split; [done|]. split; [done|]. subst wi'. rewrite Hw. fold wi.
  rewrite body_valid by done. cbv zeta. fold key. rewrite Hget.
  split; intros Hown; rewrite Hown; cbn [fst snd].
  - destruct (getRateLimit_run req (log (CallPickerGet key) wi).2)
      as (-> & -> & _ & -> & ->).
    simpl. rewrite <- app_assoc. do 4 (split; [done|]).
    intros Hnone. destruct (getRateLimit_switch _ _).1 as [out|err] eqn:Hres.
    + by apply Hnone.
    + done.
  - destruct (peer_GetPeerRateLimit_run peer req (log (CallPickerGet key) wi).2)
      as (-> & -> & -> & ->).
    simpl. rewrite <- app_assoc. do 4 (split; [done|]).
    apply lookup_singleton_eq.
Qed.

(** C10: the result of an item fetched from another peer has the metadata
    map [{"owner": host}] and nothing else, whether the call to the peer
    succeeded or failed: a failed call yields the error result with that
    map, a successful one the peer's result with its own metadata
    replaced. *)
Theorem GetRateLimits_remote_metadata (r : Requests) w i req peer :
  Z.of_nat (length (Requests_Requests r)) ≤ maxBatchSize →
  Requests_Requests r !! i = Some req →
  UniqueKey req ≠ "" → Namespace req ≠ "" →
  let wi := world_at GetRateLimits_body (Requests_Requests r) i w in
  let key := Namespace req +:+ "_" +:+ UniqueKey req in
  PeerPicker.Get (Picker (conf (inst wi))) key = inl peer →
  isOwner peer = false →
  ∃ rls w' rl,
    GetRateLimits r w = (Some {| RateLimits_RateLimits := rls |}, None, w')
    ∧ rls !! i = Some rl
    ∧ Metadata rl = {[ "owner" := host peer ]}
    ∧ (∀ out, (PeerClient_GetPeerRateLimit peer req (env wi)).1 = inl out →
       rl = set_Metadata {[ "owner" := host peer ]} out)
    ∧ (∀ err, (PeerClient_GetPeerRateLimit peer req (env wi)).1 = inr err →
       rl = set_Metadata {[ "owner" := host peer ]}
              (RateLimit_Error ("while fetching rate limit '" +:+ key
                                +:+ "' from peer - '" +:+ err +:+ "'"))).
Proof.
  intros Hlen Hi Hk Hns wi key Hget Hown.
  destruct (GetRateLimits_slot r w i req Hlen Hi) as (rls & w' & Hrun & Hrl & _).
  exists rls, w', (GetRateLimits_body req wi).1.
  split; [done|]. split; [done|]. fold wi.
  rewrite body_valid by done. cbv zeta. fold key. rewrite Hget, Hown.
  cbn [fst snd].
  destruct (peer_GetPeerRateLimit_run peer req (log (CallPickerGet key) wi).2)
    as (-> & _).
  simpl. split; [done|]. split; by intros ? ->.
Qed.

(** ** Oversized batches *)

(** C5: a batch of more than [maxBatchSize] = 1000 items is refused by
    both handlers with a nil response and an [OutOfRange] status error
    whose message states the bound; the world is left as it was, so no
    item has been validated, routed, applied or forwarded. *)
Theorem oversized_batch_rejected reqs w :
  Z.of_nat (length reqs) > maxBatchSize →
  GetRateLimits {| Requests_Requests := reqs |} w
    = (None,
       Some {| code := OutOfRange;
               message := "Requests.RateLimits list too large; max size is '1000'" |},
       w)
  ∧ GetPeerRateLimits {| GetPeerRateLimitsReq_Requests := reqs |} w
    = (None,
       Some {| code := OutOfRange;
               message := "'PeerRequest.rate_limits' list too large; max size is '1000'" |},
       w).
Proof.
  intros Hlen. unfold GetRateLimits, GetPeerRateLimits. simpl.
  destruct (decide _) as [_|]; [|done]. done.
Qed.

(** ** UpdatePeerGlobals *)

(** C8, as the code has it: [UpdatePeerGlobals] leaves the world as it was
    and returns a nil response together with a nil error. *)
Theorem UpdatePeerGlobals_returns_nil (r : UpdatePeerGlobalsReq) w :
  UpdatePeerGlobals r w = (None, None, w).
Proof. reflexivity. Qed.

(** ** The peer-facing batch handler *)

(** C9: within the size limit, [GetPeerRateLimits] hands every item to
    [getRateLimit], whatever its [namespace] and [unique_key]: the item's
    slot holds the algorithm's result, or its error text, the only call
    logged for the item is the one to the algorithm, and the picker and
    the peers are left alone.  The body of [GetRateLimits], run on an item
    with an empty field in the same world, calls nothing and answers with
    a validation error. *)
Theorem GetPeerRateLimits_applies_algorithm_directly
    (r : GetPeerRateLimitsReq) w :
  Z.of_nat (length (GetPeerRateLimitsReq_Requests r)) ≤ maxBatchSize →
  ∃ rls w',
    GetPeerRateLimits r w
      = (Some {| GetPeerRateLimitsResp_RateLimits := rls |}, None, w')
    ∧ length rls = length (GetPeerRateLimitsReq_Requests r)
    ∧ ∀ i req, GetPeerRateLimitsReq_Requests r !! i = Some req →
        let wi := world_at GetPeerRateLimits_body
                    (GetPeerRateLimitsReq_Requests r) i w in
        let wi' := world_at GetPeerRateLimits_body
                     (GetPeerRateLimitsReq_Requests r) (S i) w in
        let res := getRateLimit_switch (Cache (conf (inst wi))) req in
        rls !! i = Some match res.1 with
                        | inl out => out
                        | inr err => RateLimit_Error err
                        end
        ∧ calls wi' = calls wi ++ [CallGetRateLimit req]
        ∧ Cache (conf (inst wi')) = res.2
        ∧ env wi' = env wi
        ∧ (UniqueKey req = "" ∨ Namespace req = "" →
           (GetRateLimits_body req wi).2 = wi
           ∧ ((GetRateLimits_body req wi).1
                = RateLimit_Error "field 'unique_key' cannot be empty"
              ∨ (GetRateLimits_body req wi).1
                = RateLimit_Error "field 'namespace' cannot be empty")).
Proof.
  intros Hlen. rewrite GetPeerRateLimits_accepted by done. cbv zeta.
  eexists _, _. split; [reflexivity|].
  split; [apply range_append_length|].
  intros i req Hi.
  destruct (range_append_lookup GetPeerRateLimits_body _ w i req Hi)
    as [-> ->].
  set (wi := world_at _ _ i w).
  destruct (getRateLimit_run req wi) as (Hres & Hcache & _ & Henv & Hcalls).
  unfold GetPeerRateLimits_body at 1 2 3 4, bind.
  destruct (getRateLimit req wi) as [res w1]. simpl in *. subst res.
  split; [by destruct (getRateLimit_switch _ _).1|].
  split; [by destruct (getRateLimit_switch _ _).1|].
  split; [by destruct (getRateLimit_switch _ _).1|].
  split; [by destruct (getRateLimit_switch _ _).1|].
  intros Hempty. destruct (decide (UniqueKey req = "")) as [Hk|Hk].
  - rewrite body_unique_key_empty by done. simpl. auto.
  - destruct Hempty as [?|Hns]; [done|].
    rewrite body_namespace_empty by done. simpl. auto.
Qed.

(** ** Membership rebuild *)

Lemma append_assoc (a b c : string) : (a +:+ b) +:+ c = a +:+ b +:+ c.
Proof.
  induction a as [|x a IH]; [done|].
  change (String x ((a +:+ b) +:+ c) = String x (a +:+ b +:+ c)).
  by rewrite IH.
Qed.

Lemma contains_failure (peer : string) :
  contains (updatePeers_failure peer) peer.
Proof.
  by exists "failed to connect to peer '", "'; consistent hash is incomplete".
Qed.

Lemma contains_Join (l : list string) (sep x a : string) :
  x ∈ l → contains x a → contains (Join l sep) a.
Proof.
  intros Hx (pre & post & ->). induction l as [|y l IH]; [by inversion Hx|].
  destruct l as [|z l].
  - apply list_elem_of_singleton in Hx as <-. by exists pre, post.
  - apply elem_of_cons in Hx as [<-|Hx].
    + exists pre, (post +:+ sep +:+ Join (z :: l) sep).
      change (Join ((pre +:+ a +:+ post) :: z :: l) sep)
        with ((pre +:+ a +:+ post) +:+ sep +:+ Join (z :: l) sep).
      by rewrite !append_assoc.
    + destruct (IH Hx) as (pre' & post' & Heq).
      exists (y +:+ sep +:+ pre'), post'.
      change (Join (y :: z :: l) sep) with (y +:+ sep +:+ Join (z :: l) sep).
      by rewrite Heq, !append_assoc.
Qed.

Lemma int32_small (x : Z) : - 2 ^ 31 ≤ x < 2 ^ 31 → int32 x = x.
Proof. intros Hx. unfold int32. rewrite Z.mod_small; lia. Qed.

(** The loop connects to the addresses in order, adds the handle of each
    one that connected and collects a message for each one that did not. *)
Lemma updatePeers_loop_run (peers : list string) (picker : P)
    (errs : list string) w :
  let d := dial_all peers (env w) in
  updatePeers_loop peers picker errs w =
  ((foldl PeerPicker.Add picker (connected (inst w) d.1),
    errs ++ (updatePeers_failure <$> failed d.1)),
   {| inst := inst w; env := d.2;
      calls := calls w
               ++ ((λ o, CallNewPeerClient o.1
                           match o.2 with inl _ => true | inr _ => false end)
                   <$> d.1) |}).
Proof.
  revert picker errs w.
  induction peers as [|peer rest IH]; intros picker errs w.
  - simpl. unfold ret. rewrite !app_nil_r. by destruct w.
  - simpl. unfold bind at 1, connect, bind, on_env, log, ret, self. simpl.
    destruct (NewPeerClient peer (env w)) as [[peerInfo|err] e1]; simpl;
      rewrite IH; simpl; destruct (dial_all rest e1) as [out e2]; simpl;
      unfold connected, failed; simpl; by rewrite <- !app_assoc.
Qed.

(** The whole rebuild, field by field. *)
Lemma updatePeers_run (c : PeerConfig) w :
  let d := dial_all (Peers c) (env w) in
  let picker := foldl PeerPicker.Add (PeerPicker.New (Picker (conf (inst w))))
                  (connected (inst w) d.1) in
  let w' := (updatePeers c w).2 in
  Picker (conf (inst w')) = picker
  ∧ Status (health (inst w'))
    = (if decide (failed d.1 = []) then Healthy else UnHealthy)
  ∧ Message (health (inst w'))
    = (if decide (failed d.1 = []) then Message (health (inst w))
       else Join (updatePeers_failure <$> failed d.1) "|")
  ∧ PeerCount (health (inst w')) = int32 (PeerPicker.Size picker)
  ∧ env w' = d.2.
Proof.
  unfold updatePeers, bind at 1, self, bind. rewrite updatePeers_loop_run.
  cbn [fst snd]. unfold updatePeers_commit. simpl.
  destruct (decide (failed _ = [])) as [Hf|Hf].
  - by rewrite Hf.
  - destruct (decide (length _ ≠ 0%nat)) as [_|Hn]; [done|].
    destruct (failed _); [done|]. simpl in Hn. lia.
Qed.

(** C3: a membership update installs the picker built from the addresses
    that connected, however many did not.  Afterwards the status is
    unhealthy exactly when some address failed to connect during this
    rebuild, the message then contains every such address, the peer count
    is the size of the new picker, and a later rebuild in which every
    address connects gives a healthy status again, for any membership
    list. *)
Theorem updatePeers_commits_and_reports (c : PeerConfig) w :
  let out := (dial_all (Peers c) (env w)).1 in
  let w' := (updatePeers c w).2 in
  - 2 ^ 31 ≤ PeerPicker.Size (Picker (conf (inst w'))) < 2 ^ 31 →
  Picker (conf (inst w'))
    = foldl PeerPicker.Add (PeerPicker.New (Picker (conf (inst w))))
        (connected (inst w) out)
  ∧ (Status (health (inst w')) = UnHealthy ↔ ∃ a, a ∈ failed out)
  ∧ (failed out = [] → Status (health (inst w')) = Healthy)
  ∧ (∀ a, a ∈ failed out → contains (Message (health (inst w'))) a)
  ∧ PeerCount (health (inst w')) = PeerPicker.Size (Picker (conf (inst w')))
  ∧ (∀ c2, failed (dial_all (Peers c2) (env w')).1 = [] →
     Status (health (inst (updatePeers c2 w').2)) = Healthy).
Proof.
  intros out w' Hsize.
  destruct (updatePeers_run c w) as (Hp & Hs & Hm & Hn & _).
  fold out w' in Hp, Hs, Hm, Hn.
  split; [done|]. split; [|split; [|split; [|split]]].
  - rewrite Hs. destruct (decide (failed out = [])) as [Hf|Hf].
    + rewrite Hf. split; [done|]. intros [a Ha]. by inversion Ha.
    + split; [|done]. intros _. destruct (failed out) as [|a l]; [done|].
      exists a. apply elem_of_cons. by left.
  - intros Hf. rewrite Hs. by rewrite decide_True.
  - intros a Ha. rewrite Hm. destruct (decide _) as [Hf|_].
    + rewrite Hf in Ha. by inversion Ha.
    + apply (contains_Join _ _ (updatePeers_failure a)).
      * apply list_elem_of_fmap. by exists a.
      * apply contains_failure.
  - rewrite Hn, <- Hp. by apply int32_small.
  - intros c2 Hf. destruct (updatePeers_run c2 w') as (_ & Hs2 & _).
    rewrite Hs2. by rewrite decide_True.
Qed.

Lemma Size_foldl_Add (picker : P) (handles : list PeerClient) :
  (∀ p h, PeerPicker.Size (PeerPicker.Add p h) = PeerPicker.Size p + 1) →
  PeerPicker.Size (foldl PeerPicker.Add picker handles)
    = PeerPicker.Size picker + Z.of_nat (length handles).
Proof.
  intros HAdd. revert picker.
  induction handles as [|h l IH]; intros picker; simpl; [lia|].
  rewrite IH, HAdd. lia.
Qed.

Lemma dial_all_length (peers : list string) (e : Env) :
  length (dial_all peers e).1 = length peers.
Proof.
  revert e. induction peers as [|peer rest IH]; intros e; simpl; [done|].
  destruct (NewPeerClient peer e) as [res e1].
  specialize (IH e1). destruct (dial_all rest e1). simpl in *. by rewrite IH.
Qed.

Lemma connected_length (s : Instance (CacheT := CacheT) (P := P)) (out : list (string * (PeerClient + error))) :
  failed out = [] → length (connected s out) = length out.
Proof.
  unfold failed, connected.
  induction out as [|[a [h|err]] out IH]; simpl; [done| |done].
  intros Hf. f_equal. by apply IH.
Qed.

(** C7: for a picker whose size counts the handles added since [New],
    the same membership list delivered twice, every address connecting
    both times, gives pickers of the same size, one handle per address,
    and a healthy status after each rebuild. *)
Theorem updatePeers_idempotent (c : PeerConfig) w :
  (∀ p, PeerPicker.Size (PeerPicker.New p) = 0) →
  (∀ p h, PeerPicker.Size (PeerPicker.Add p h) = PeerPicker.Size p + 1) →
  let w1 := (updatePeers c w).2 in
  let w2 := (updatePeers c w1).2 in
  failed (dial_all (Peers c) (env w)).1 = [] →
  failed (dial_all (Peers c) (env w1)).1 = [] →
  PeerPicker.Size (Picker (conf (inst w1)))
    = PeerPicker.Size (Picker (conf (inst w2)))
  ∧ PeerPicker.Size (Picker (conf (inst w2))) = Z.of_nat (length (Peers c))
  ∧ Status (health (inst w1)) = Healthy
  ∧ Status (health (inst w2)) = Healthy.
Proof.
  intros HNew HAdd w1 w2 Hf1 Hf2.
  destruct (updatePeers_run c w) as (Hp1 & Hs1 & _).
  destruct (updatePeers_run c w1) as (Hp2 & Hs2 & _).
  fold w1 in Hp1, Hs1. fold w2 in Hp2, Hs2.
  rewrite Hs1, Hs2, Hp1, Hp2, !Size_foldl_Add, !HNew by done.
  rewrite !connected_length, !dial_all_length by done.
  rewrite !decide_True by done. repeat split; lia.
Qed.

(** ** Startup *)

(** Every way of writing an explicit log as [pre ++ c :: post]. *)
Ltac split_log :=
  repeat match goal with
  | E : _ :: _ = ?pre ++ _ :: _ |- _ =>
      destruct pre as [|? pre]; simpl in E; simplify_eq
  | E : [] = ?pre ++ _ :: _ |- _ =>
      destruct pre; simpl in E; discriminate E
  end.

Ltac not_in_log H :=
  repeat (apply elem_of_cons in H as [H|H]; [discriminate H|]);
  by apply elem_of_nil in H.

Ltac in_log :=
  solve [repeat first [by apply list_elem_of_here | apply list_elem_of_further]].

Lemma probes_app (cs1 cs2 : list Call) :
  probes (cs1 ++ cs2) = probes cs1 ++ probes cs2.
Proof. apply omap_app. Qed.

(** [retry] with the probe of [Start] as callback, for any number of
    attempts: the probe runs at most that many times, a success is the
    last thing [retry] does, and [retry] returns nil exactly when a probe
    succeeded (or when no attempt was allowed at all). *)
Lemma retry_loop_probes (n : nat) (d : Z) (err : option error) w :
  ∃ cs,
    calls (retry_loop n d Start_probe err w).2 = calls w ++ cs
    ∧ inst (retry_loop n d Start_probe err w).2 = inst w
    ∧ (length (probes cs) ≤ n)%nat
    ∧ (∀ pre post, cs = pre ++ CallHealthCheck true :: post → post = [])
    ∧ ((retry_loop n d Start_probe err w).1 = None ↔
       CallHealthCheck true ∈ cs ∨ (n = 0%nat ∧ err = None)).
Proof.
  revert err w. induction n as [|n IH]; intros err w.
  - exists []. simpl. rewrite app_nil_r. do 3 (split; [done|]).
    split; [by intros [|??] ??|].
    split; [auto|]. intros [Hin|[_ ?]]; [by apply elem_of_nil in Hin|done].
  - simpl. unfold bind.
    destruct (Start_probe w) as [res w1] eqn:Hp.
    unfold Start_probe, bind, on_env, log, ret in Hp. simpl in Hp.
    destruct (loopback_HealthCheck (env w)) as [[e|] e1]; simplify_eq/=.
    + unfold Sleep, log. simpl.
      destruct (IH (Some e)
        {| inst := inst w; env := e1;
           calls := ((calls w ++ [CallHealthCheck false])
                     ++ [CallSleep d]) |})
        as (cs & Hcs & Hinst & Hlen & Hlast & Hres).
      simpl in *.
      exists (CallHealthCheck false :: CallSleep d :: cs).
      split; [by rewrite Hcs, <- !app_assoc|]. split; [done|].
      split; [simpl; lia|]. split.
      * intros [|c0 [|c1 pre]] post Heq; simplify_eq/=. by eapply Hlast.
      * rewrite Hres. split.
        -- intros [Hin|[_ ?]]; [|done]. left. by do 2 apply list_elem_of_further.
        -- intros [Hin|[? _]]; [|done]. left.
           apply elem_of_cons in Hin as [?|Hin]; [done|].
           by apply elem_of_cons in Hin as [?|Hin].
    + exists [CallHealthCheck true]. do 2 (split; [done|]).
      split; [simpl; lia|]. split.
      * intros [|c0 [|c1 pre]] post Heq; by simplify_eq/=.
      * split; [|done]. intros _. left. apply list_elem_of_here.
Qed.

Ltac start_run :=
  unfold Start, Start_wait, retry; rewrite ?Nat2Z.id;
  change (Z.to_nat 2) with 2%nat;
  unfold Start_probe, Sleep, retry_loop, bind, ret, log, on_cache, on_env, self;
  simpl.

Ltac start_cases :=
  destruct (Serve_returned_after _) as [|[|[|finished]]]; simpl;
  match goal with
  | |- context [loopback_HealthCheck ?e1] =>
      destruct (loopback_HealthCheck e1) as [[?|] ?] eqn:?; simpl;
      [match goal with
       | |- context [loopback_HealthCheck ?e2] =>
           destruct (loopback_HealthCheck e2) as [[?|] ?] eqn:?; simpl
       end|]
  end.

(** X27: as long as [server.Serve] does not return nil while [Start]
    waits, [Start] registers with the membership mechanism, under the
    advertise address, only as its last call and only right after a
    loopback probe that succeeded.  The probe is tried at most twice and
    never again after a success.  When no probe succeeds [Start] returns
    an error and does not register.  When the cache and the metrics
    collector start and the server keeps serving, the probes in the log
    are the answers of the loopback health check, the second asked only
    after the first has failed, and after a success [Start] registers and
    fails only if the registration does. *)
Theorem Start_verifies_unless_stopped w :
  (∀ e, Serve_returned e ≠ Some None) →
  ∃ cs r w',
    Start w = (r, w')
    ∧ calls w' = calls w ++ cs
    ∧ (length (probes cs) ≤ 2)%nat
    ∧ (∀ pre post, probes cs = pre ++ true :: post → post = [])
    ∧ (∀ pre a post, cs = pre ++ CallPeerSyncerStart a :: post →
       a = AdvertiseAddress (conf (inst w))
       ∧ last (probes pre) = Some true
       ∧ post = [])
    ∧ (true ∉ probes cs → r ≠ None ∧ ∀ a, CallPeerSyncerStart a ∉ cs)
    ∧ ((∀ e, Serve_returned e = None) → true ∈ probes cs →
       CallPeerSyncerStart (AdvertiseAddress (conf (inst w))) ∈ cs
       ∧ (r = None
          ∨ ∃ e, r = Some (Wrap e "failed to sync configs with other peers")))
    ∧ ((∀ e, Serve_returned e = None) →
       ∀ c e1, Cache_Start (Cache (conf (inst w))) = (None, c) →
               Metrics_Start (env w) = (None, e1) →
       probes cs
         = match loopback_HealthCheck e1 with
           | (None, _) => [true]
           | (Some _, e2) =>
               match loopback_HealthCheck e2 with
               | (None, _) => [false; true]
               | (Some _, _) => [false; false]
               end
           end).
Proof.
  intros Hserve. start_run.
  destruct (Cache_Start _) as [[e0|] c1]; simpl.
  { eexists _, _, _. split; [reflexivity|]. simpl.
    split; [reflexivity|]. simpl.
    split; [lia|]. split; [by intros [|??] ??|].
    split; [intros; split_log|].
    split; [intros _; split; [done|intros a Hin; not_in_log Hin]|].
    split; [intros _ Hin; not_in_log Hin|].
    intros _ c e1 Hc. discriminate Hc. }
  destruct (Metrics_Start _) as [[e1|] env1]; simpl.
  { eexists _, _, _. split; [reflexivity|]. simpl. rewrite <- !app_assoc.
    split; [reflexivity|]. simpl.
    split; [lia|]. split; [by intros [|??] ??|].
    split; [intros; split_log|].
    split; [intros _; split; [done|intros a Hin; not_in_log Hin]|].
    split; [intros _ Hin; not_in_log Hin|].
    intros _ c e2 _ Hm. discriminate Hm. }
  start_cases;
    (destruct (Serve_returned _) as [[e4|]|] eqn:Hs; simpl;
     [| exfalso; eapply Hserve; eassumption |]);
    try (destruct (PeerSyncer_Start _ _) as [[e5|] env5]; simpl).
   all: (eexists _, _, _; split; [reflexivity|]; simpl; rewrite <- ?app_assoc;
     split; [first [reflexivity | symmetry; apply app_nil_r]|]; simpl;
     split; [lia|];
     split; [intros pre post Hpre; try by split_log|];
     split; [intros; try by split_log|];
     split; [try first
               [ intros Hn; exfalso; apply Hn; in_log
               | intros _; split; [done|intros a Hin; not_in_log Hin] ]|];
     split; [try first
               [ intros Hrun; by rewrite Hrun in Hs
               | intros _ _; split; [in_log|eauto]
               | intros _ Hin; not_in_log Hin ]|];
     try first
       [ intros Hrun; by rewrite Hrun in Hs
       | intros _ c e1' _ Hm; injection Hm as <-;
         repeat match goal with
                | E : loopback_HealthCheck _ = _ |- _ => rewrite E
                end; reflexivity ]).
Qed.

End Properties.

(** * Further properties of the handlers *)

Section Further.

Context {CacheT Env P : Type}.
Context `{!AlgorithmEnum} `{!PeerPicker.t P} `{!Collaborators CacheT Env}.

Implicit Types (w : World (CacheT := CacheT) (Env := Env) (P := P)).
Implicit Types (req : Request) (reqs : list Request) (rl : RateLimit).

(** ** What a batch call leaves alone *)

Lemma keeps_instance_refl w : keeps_instance w w.
Proof. repeat split. exists []. by rewrite app_nil_r. Qed.

Lemma keeps_instance_trans w1 w2 w3 :
  keeps_instance w1 w2 → keeps_instance w2 w3 → keeps_instance w1 w3.
Proof.
  intros (Hh & Hp & Ha & cs & Hc) (Hh' & Hp' & Ha' & cs' & Hc').
  repeat split; [congruence..|].
  exists (cs ++ cs'). by rewrite Hc', Hc, app_assoc.
Qed.

Lemma range_append_keeps (R : World (CacheT := CacheT) (Env := Env) (P := P)
                              → World → Prop)
    (body : Request → M RateLimit) reqs w :
  (∀ w, R w w) → (∀ w1 w2 w3, R w1 w2 → R w2 w3 → R w1 w3) →
  (∀ req w, R w (body req w).2) →
  R w (range_append body reqs [] w).2.
Proof.
  intros Hrefl Htrans Hbody. revert w.
  induction reqs as [|req rest IH]; intros w; [apply Hrefl|].
  rewrite range_append_cons. cbn [snd]. eapply Htrans; [apply Hbody|apply IH].
Qed.

Ltac log_grows :=
  simpl; eexists; rewrite <- ?app_assoc;
  first [reflexivity | by rewrite app_nil_r].

Lemma getRateLimit_keeps req w : keeps_instance w (getRateLimit req w).2.
Proof.
  unfold getRateLimit, bind, log, on_cache. simpl.
  destruct (getRateLimit_switch _ _) as [res c]. repeat split. log_grows.
Qed.

Lemma GetRateLimits_body_keeps req w :
  keeps_instance w (GetRateLimits_body req w).2.
Proof.
  unfold GetRateLimits_body.
  destruct (decide _); [apply keeps_instance_refl|].
  destruct (decide _); [apply keeps_instance_refl|].
  unfold Picker_Get, bind, ret, self, log. simpl.
  destruct (PeerPicker.Get _ _) as [peer|err]; [|repeat split; log_grows].
  destruct (isOwner peer).
  - match goal with |- context [getRateLimit req ?w1] =>
      pose proof (getRateLimit_keeps req w1) as Hk;
      destruct (getRateLimit req w1) as [[rl|err] w2] end;
      simpl in *; destruct Hk as (? & ? & ? & cs & Hc);
      repeat split; try done; rewrite Hc; log_grows.
  - unfold peer_GetPeerRateLimit, bind, log, on_env. simpl.
    destruct (PeerClient_GetPeerRateLimit _ _ _) as [res e].
    repeat split. log_grows.
Qed.

Lemma GetPeerRateLimits_body_keeps req w :
  keeps_instance w (GetPeerRateLimits_body req w).2
  ∧ env (GetPeerRateLimits_body req w).2 = env w.
Proof.
  unfold GetPeerRateLimits_body, getRateLimit, bind, ret, log, on_cache. simpl.
  destruct (getRateLimit_switch _ _) as [[rl|err] c];
    repeat split; log_grows.
Qed.

(** X1: whatever the batch, [GetRateLimits] leaves the health, the picker
    and the advertise address of the instance as they were, and only adds
    to the log of calls. *)
Theorem GetRateLimits_keeps_instance (r : Requests) w :
  keeps_instance w (GetRateLimits r w).2.
Proof.
  unfold GetRateLimits. destruct (decide _); [apply keeps_instance_refl|].
  unfold bind, ret.
  pose proof (range_append_keeps keeps_instance GetRateLimits_body
                (Requests_Requests r) w keeps_instance_refl
                keeps_instance_trans GetRateLimits_body_keeps) as Hk.
  by destruct (range_append _ _ _ _).
Qed.

(** X2: whatever the batch, [GetPeerRateLimits] leaves the health, the
    picker and the advertise address as they were and never touches the
    environment: it calls no peer. *)
Theorem GetPeerRateLimits_keeps_instance_and_env (r : GetPeerRateLimitsReq) w :
  keeps_instance w (GetPeerRateLimits r w).2
  ∧ env (GetPeerRateLimits r w).2 = env w.
Proof.
  unfold GetPeerRateLimits.
  destruct (decide _); [split; [apply keeps_instance_refl|done]|].
  unfold bind, ret.
  pose proof (range_append_keeps
                (λ w w', keeps_instance w w' ∧ env w' = env w)
                GetPeerRateLimits_body
                (GetPeerRateLimitsReq_Requests r) w) as Hk.
  destruct (range_append _ _ _ _). apply Hk.
  - intros wa. split; [apply keeps_instance_refl|done].
  - intros wa wb wc [H12 He12] [H23 He23].
    split; [by eapply keeps_instance_trans|congruence].
  - apply GetPeerRateLimits_body_keeps.
Qed.

(** ** Batches compose *)

(** X3: a batch within the size limit is handled item after item, so
    handling [reqs1 ++ reqs2] in one call gives the results, and leaves the
    world, of a call on [reqs1] followed by a call on [reqs2]. *)
Theorem GetRateLimits_app reqs1 reqs2 w :
  Z.of_nat (length (reqs1 ++ reqs2)) ≤ maxBatchSize →
  ∃ rls1 rls2 w1 w2,
    GetRateLimits {| Requests_Requests := reqs1 |} w
      = (Some {| RateLimits_RateLimits := rls1 |}, None, w1)
    ∧ GetRateLimits {| Requests_Requests := reqs2 |} w1
      = (Some {| RateLimits_RateLimits := rls2 |}, None, w2)
    ∧ GetRateLimits {| Requests_Requests := reqs1 ++ reqs2 |} w
      = (Some {| RateLimits_RateLimits := rls1 ++ rls2 |}, None, w2).
Proof.
  intros Hlen. rewrite length_app in Hlen.
  set (run1 := range_append GetRateLimits_body reqs1 [] w).
  set (run2 := range_append GetRateLimits_body reqs2 [] run1.2).
  exists run1.1, run2.1, run1.2, run2.2.
  rewrite !GetRateLimits_accepted by (simpl; rewrite ?length_app; lia).
  cbv zeta. simpl. by rewrite range_append_app.
Qed.

(** X4: the same for [GetPeerRateLimits]. *)
Theorem GetPeerRateLimits_app reqs1 reqs2 w :
  Z.of_nat (length (reqs1 ++ reqs2)) ≤ maxBatchSize →
  ∃ rls1 rls2 w1 w2,
    GetPeerRateLimits {| GetPeerRateLimitsReq_Requests := reqs1 |} w
      = (Some {| GetPeerRateLimitsResp_RateLimits := rls1 |}, None, w1)
    ∧ GetPeerRateLimits {| GetPeerRateLimitsReq_Requests := reqs2 |} w1
      = (Some {| GetPeerRateLimitsResp_RateLimits := rls2 |}, None, w2)
    ∧ GetPeerRateLimits {| GetPeerRateLimitsReq_Requests := reqs1 ++ reqs2 |} w
      = (Some {| GetPeerRateLimitsResp_RateLimits := rls1 ++ rls2 |}, None, w2).
Proof.
  intros Hlen. rewrite length_app in Hlen.
  set (run1 := range_append GetPeerRateLimits_body reqs1 [] w).
  set (run2 := range_append GetPeerRateLimits_body reqs2 [] run1.2).
  exists run1.1, run2.1, run1.2, run2.2.
  rewrite !GetPeerRateLimits_accepted by (simpl; rewrite ?length_app; lia).
  cbv zeta. simpl. by rewrite range_append_app.
Qed.

(** ** Items for which no peer is found *)

(** X5: when the picker returns an error for the key of a valid item, the
    item's result carries that error after the key, and nothing but the
    picker has been called for it: the instance, cache included, and the
    environment are as before. *)
Theorem GetRateLimits_no_peer_found (r : Requests) w i req err :
  Z.of_nat (length (Requests_Requests r)) ≤ maxBatchSize →
  Requests_Requests r !! i = Some req →
  UniqueKey req ≠ "" → Namespace req ≠ "" →
  let wi := world_at GetRateLimits_body (Requests_Requests r) i w in
  let wi' := world_at GetRateLimits_body (Requests_Requests r) (S i) w in
  let key := Namespace req +:+ "_" +:+ UniqueKey req in
  PeerPicker.Get (Picker (conf (inst wi))) key = inr err →
  ∃ rls w',
    GetRateLimits r w = (Some {| RateLimits_RateLimits := rls |}, None, w')
    ∧ rls !! i
      = Some (RateLimit_Error
                ("while finding peer that owns rate limit '" +:+ key
                 +:+ "' - '" +:+ err +:+ "'"))
    ∧ calls wi' = calls wi ++ [CallPickerGet key]
    ∧ inst wi' = inst wi
    ∧ env wi' = env wi.
Proof.
  intros Hlen Hi Hk Hns wi wi' key Hget.
  destruct (GetRateLimits_slot r w i req Hlen Hi) as (rls & w' & Hrun & Hrl & Hw).
  exists rls, w'. split; [done|]. subst wi'. rewrite Hrl, Hw. fold wi.
  rewrite body_valid by done. cbv zeta. fold key. by rewrite Hget.
Qed.

(** ** Unknown algorithms *)

Lemma getRateLimit_switch_invalid (c : CacheT) req :
  Algorithm req ≠ Algorithm_TOKEN_BUCKET →
  Algorithm req ≠ Algorithm_LEAKY_BUCKET →
  getRateLimit_switch c req
    = (inr ("invalid rate limit algorithm '" +:+ pretty (Algorithm req) +:+ "'"),
       c).
Proof.
  intros Ht Hl. unfold getRateLimit_switch.
  by rewrite !decide_False.
Qed.

(** X6: an item of a [GetPeerRateLimits] batch whose algorithm is neither
    of the two known ones gets the error naming the number it carries, and
    the cache is as before the item. *)
Theorem GetPeerRateLimits_invalid_algorithm (r : GetPeerRateLimitsReq) w i req :
  Z.of_nat (length (GetPeerRateLimitsReq_Requests r)) ≤ maxBatchSize →
  GetPeerRateLimitsReq_Requests r !! i = Some req →
  Algorithm req ≠ Algorithm_TOKEN_BUCKET →
  Algorithm req ≠ Algorithm_LEAKY_BUCKET →
  let wi := world_at GetPeerRateLimits_body
              (GetPeerRateLimitsReq_Requests r) i w in
  let wi' := world_at GetPeerRateLimits_body
               (GetPeerRateLimitsReq_Requests r) (S i) w in
  ∃ rls w',
    GetPeerRateLimits r w
      = (Some {| GetPeerRateLimitsResp_RateLimits := rls |}, None, w')
    ∧ rls !! i
      = Some (RateLimit_Error
                ("invalid rate limit algorithm '" +:+ pretty (Algorithm req)
                 +:+ "'"))
    ∧ Cache (conf (inst wi')) = Cache (conf (inst wi)).
Proof.
  intros Hlen Hi Ht Hl wi wi'.
  rewrite GetPeerRateLimits_accepted by done. cbv zeta.
  destruct (range_append_lookup GetPeerRateLimits_body _ w i req Hi)
    as [Hrl Hw].
  eexists _, _. split; [reflexivity|]. subst wi'. rewrite Hrl, Hw. fold wi.
  unfold GetPeerRateLimits_body, getRateLimit, bind, ret, log, on_cache. simpl.
  by rewrite getRateLimit_switch_invalid.
Qed.

(** X7: the same item in a [GetRateLimits] batch, valid and owned by this
    instance, gets that error wrapped with its key, with no metadata, and
    the cache is as before the item. *)
Theorem GetRateLimits_invalid_algorithm (r : Requests) w i req peer :
  Z.of_nat (length (Requests_Requests r)) ≤ maxBatchSize →
  Requests_Requests r !! i = Some req →
  UniqueKey req ≠ "" → Namespace req ≠ "" →
  Algorithm req ≠ Algorithm_TOKEN_BUCKET →
  Algorithm req ≠ Algorithm_LEAKY_BUCKET →
  let wi := world_at GetRateLimits_body (Requests_Requests r) i w in
  let wi' := world_at GetRateLimits_body (Requests_Requests r) (S i) w in
  let key := Namespace req +:+ "_" +:+ UniqueKey req in
  PeerPicker.Get (Picker (conf (inst wi))) key = inl peer →
  isOwner peer = true →
  ∃ rls w',
    GetRateLimits r w = (Some {| RateLimits_RateLimits := rls |}, None, w')
    ∧ rls !! i
      = Some (RateLimit_Error
                ("while applying rate limit for '" +:+ key
                 +:+ "' - 'invalid rate limit algorithm '"
                 +:+ pretty (Algorithm req) +:+ "''"))
    ∧ Cache (conf (inst wi')) = Cache (conf (inst wi)).
Proof.
  intros Hlen Hi Hk Hns Ht Hl wi wi' key Hget Hown.
  destruct (GetRateLimits_slot r w i req Hlen Hi) as (rls & w' & Hrun & Hrl & Hw).
  exists rls, w'. split; [done|]. subst wi'. rewrite Hrl, Hw. fold wi.
  rewrite body_valid by done. cbv zeta. fold key. rewrite Hget, Hown.
  unfold getRateLimit, bind, ret, log, on_cache. simpl.
  rewrite getRateLimit_switch_invalid by done. simpl.
  split; [|done]. do 2 f_equal.
  by rewrite !append_assoc.
Qed.

(** ** Single-owner and owner-less pickers *)

(** X8: when every handle the picker can return is marked as owner, a
    [GetRateLimits] call, whatever the batch, calls no peer: the
    environment is unchanged and the calls it logs contain no remote
    fetch. *)
Theorem GetRateLimits_all_owned_calls_no_peer (r : Requests) w :
  (∀ key peer, PeerPicker.Get (Picker (conf (inst w))) key = inl peer →
               isOwner peer = true) →
  env (GetRateLimits r w).2 = env w
  ∧ ∃ cs, calls (GetRateLimits r w).2 = calls w ++ cs
          ∧ ∀ host req, CallPeerGetPeerRateLimit host req ∉ cs.
Proof.
  intros Hown.
  set (R := λ w w',
    (∀ key peer, PeerPicker.Get (Picker (conf (inst w))) key = inl peer →
                 isOwner peer = true) →
    Picker (conf (inst w')) = Picker (conf (inst w))
    ∧ env w' = env w
    ∧ ∃ cs, calls w' = calls w ++ cs
            ∧ ∀ host req, CallPeerGetPeerRateLimit host req ∉ cs).
  assert (Hrefl : ∀ w, R w w).
  { intros w0 _. do 2 (split; [done|]). exists [].
    split; [by rewrite app_nil_r|]. intros ?? Hin. by apply elem_of_nil in Hin. }
  assert (Htrans : ∀ w1 w2 w3, R w1 w2 → R w2 w3 → R w1 w3).
  { intros w1 w2 w3 H12 H23 H1.
    destruct (H12 H1) as (Hp & He & cs & Hc & Hn).
    destruct H23 as (Hp' & He' & cs' & Hc' & Hn'); [by rewrite Hp|].
    split; [congruence|]. split; [congruence|].
    exists (cs ++ cs'). split; [by rewrite Hc', Hc, app_assoc|].
    intros host req Hin. apply elem_of_app in Hin as [Hin|Hin];
      [by eapply Hn|by eapply Hn']. }
  assert (Hbody : ∀ req w, R w (GetRateLimits_body req w).2).
  { intros req w0 Hall. split; [apply body_Picker|].
    destruct (decide (UniqueKey req = "")) as [Hk|Hk];
      [rewrite body_unique_key_empty by done; by apply Hrefl|].
    destruct (decide (Namespace req = "")) as [Hns|Hns];
      [rewrite body_namespace_empty by done; by apply Hrefl|].
    rewrite body_valid by done. cbv zeta.
    destruct (PeerPicker.Get _ _) as [peer|err] eqn:Hget.
    - rewrite (Hall _ _ Hget). cbn [fst snd].
      destruct (getRateLimit_run req (log (CallPickerGet
        (Namespace req +:+ "_" +:+ UniqueKey req)) w0).2)
        as (_ & _ & _ & -> & ->).
      simpl. split; [done|]. eexists. rewrite <- app_assoc.
      split; [reflexivity|]. intros host q Hin.
      apply elem_of_cons in Hin as [?|Hin]; [done|].
      apply elem_of_cons in Hin as [?|Hin]; [done|].
      by apply elem_of_nil in Hin.
    - simpl. split; [done|]. eexists. split; [reflexivity|].
      intros host q Hin. apply elem_of_cons in Hin as [?|Hin]; [done|].
      by apply elem_of_nil in Hin. }
  unfold GetRateLimits. destruct (decide _).
  { simpl. by destruct (Hrefl w Hown) as (_ & ? & ?). }
  unfold bind, ret.
  pose proof (range_append_keeps R GetRateLimits_body (Requests_Requests r) w
                Hrefl Htrans Hbody Hown) as (_ & He & Hcs).
  by destruct (range_append _ _ _ _).
Qed.

(** X9: when no handle the picker can return is marked as owner, a
    [GetRateLimits] call, whatever the batch, never runs the local
    algorithm: the cache is unchanged and the calls it logs contain no
    call of [getRateLimit]. *)
Theorem GetRateLimits_none_owned_keeps_cache (r : Requests) w :
  (∀ key peer, PeerPicker.Get (Picker (conf (inst w))) key = inl peer →
               isOwner peer = false) →
  Cache (conf (inst (GetRateLimits r w).2)) = Cache (conf (inst w))
  ∧ ∃ cs, calls (GetRateLimits r w).2 = calls w ++ cs
          ∧ ∀ req, CallGetRateLimit req ∉ cs.
Proof.
  intros Hown.
  set (R := λ w w',
    (∀ key peer, PeerPicker.Get (Picker (conf (inst w))) key = inl peer →
                 isOwner peer = false) →
    Picker (conf (inst w')) = Picker (conf (inst w))
    ∧ Cache (conf (inst w')) = Cache (conf (inst w))
    ∧ ∃ cs, calls w' = calls w ++ cs ∧ ∀ req, CallGetRateLimit req ∉ cs).
  assert (Hrefl : ∀ w, R w w).
  { intros w0 _. do 2 (split; [done|]). exists [].
    split; [by rewrite app_nil_r|]. intros ? Hin. by apply elem_of_nil in Hin. }
  assert (Htrans : ∀ w1 w2 w3, R w1 w2 → R w2 w3 → R w1 w3).
  { intros w1 w2 w3 H12 H23 H1.
    destruct (H12 H1) as (Hp & He & cs & Hc & Hn).
    destruct H23 as (Hp' & He' & cs' & Hc' & Hn'); [by rewrite Hp|].
    split; [congruence|]. split; [congruence|].
    exists (cs ++ cs'). split; [by rewrite Hc', Hc, app_assoc|].
    intros req Hin. apply elem_of_app in Hin as [Hin|Hin];
      [by eapply Hn|by eapply Hn']. }
  assert (Hbody : ∀ req w, R w (GetRateLimits_body req w).2).
  { intros req w0 Hall. split; [apply body_Picker|].
    destruct (decide (UniqueKey req = "")) as [Hk|Hk];
      [rewrite body_unique_key_empty by done; by apply Hrefl|].
    destruct (decide (Namespace req = "")) as [Hns|Hns];
      [rewrite body_namespace_empty by done; by apply Hrefl|].
    rewrite body_valid by done. cbv zeta.
    destruct (PeerPicker.Get _ _) as [peer|err] eqn:Hget.
    - rewrite (Hall _ _ Hget). cbn [fst snd].
      destruct (peer_GetPeerRateLimit_run peer req (log (CallPickerGet
        (Namespace req +:+ "_" +:+ UniqueKey req)) w0).2)
        as (_ & _ & -> & ->).
      simpl. split; [done|]. eexists. rewrite <- app_assoc.
      split; [reflexivity|]. intros q Hin.
      apply elem_of_cons in Hin as [?|Hin]; [done|].
      apply elem_of_cons in Hin as [?|Hin]; [done|].
      by apply elem_of_nil in Hin.
    - simpl. split; [done|]. eexists. split; [reflexivity|].
      intros q Hin. apply elem_of_cons in Hin as [?|Hin]; [done|].
      by apply elem_of_nil in Hin. }
  unfold GetRateLimits. destruct (decide _).
  { simpl. by destruct (Hrefl w Hown) as (_ & ? & ?). }
  unfold bind, ret.
  pose proof (range_append_keeps R GetRateLimits_body (Requests_Requests r) w
                Hrefl Htrans Hbody Hown) as (_ & He & Hcs).
  by destruct (range_append _ _ _ _).
Qed.

(** ** The two batch handlers on items owned by this instance *)

Lemma bodies_agree req (wa wb : World (CacheT := CacheT) (Env := Env) (P := P))
    peer :
  UniqueKey req ≠ "" → Namespace req ≠ "" →
  PeerPicker.Get (Picker (conf (inst wa)))
    (Namespace req +:+ "_" +:+ UniqueKey req) = inl peer →
  isOwner peer = true →
  Cache (conf (inst wa)) = Cache (conf (inst wb)) →
  env wa = env wb →
  let a := GetRateLimits_body req wa in
  let b := GetPeerRateLimits_body req wb in
  same_or_wrapped a.1 b.1
  ∧ Cache (conf (inst a.2)) = Cache (conf (inst b.2))
  ∧ env a.2 = env b.2.
Proof.
  intros Hk Hns Hget Hown Hcache Henv.
  rewrite body_valid by done. cbv zeta. rewrite Hget, Hown.
  unfold GetPeerRateLimits_body, getRateLimit, bind, ret, log, on_cache.
  simpl. rewrite Hcache.
  destruct (getRateLimit_switch _ _) as [[rl|err] c]; simpl.
  - split; [by left|done].
  - split; [right; by eexists _, _|done].
Qed.

(** X10: on a batch within the size limit all of whose items are valid
    and resolve to a handle marked as owner, [GetRateLimits] and
    [GetPeerRateLimits] run the local algorithm on the same caches: they
    end with the same cache and environment, and slot by slot they give
    the same result, except that an error of the algorithm is worded with
    the key by [GetRateLimits] and bare by [GetPeerRateLimits]. *)
Theorem GetRateLimits_agrees_with_GetPeerRateLimits reqs w :
  Z.of_nat (length reqs) ≤ maxBatchSize →
  (∀ req, req ∈ reqs →
     UniqueKey req ≠ "" ∧ Namespace req ≠ ""
     ∧ ∃ peer, PeerPicker.Get (Picker (conf (inst w)))
                 (Namespace req +:+ "_" +:+ UniqueKey req) = inl peer
               ∧ isOwner peer = true) →
  ∃ rls1 rls2 w1 w2,
    GetRateLimits {| Requests_Requests := reqs |} w
      = (Some {| RateLimits_RateLimits := rls1 |}, None, w1)
    ∧ GetPeerRateLimits {| GetPeerRateLimitsReq_Requests := reqs |} w
      = (Some {| GetPeerRateLimitsResp_RateLimits := rls2 |}, None, w2)
    ∧ Forall2 same_or_wrapped rls1 rls2
    ∧ Cache (conf (inst w1)) = Cache (conf (inst w2))
    ∧ env w1 = env w2.
Proof.
  intros Hlen Hown.
  rewrite GetRateLimits_accepted, GetPeerRateLimits_accepted by done.
  cbv zeta. simpl. eexists _, _, _, _.
  split; [reflexivity|]. split; [reflexivity|].
  clear Hlen.
  assert (Hgen : ∀ wa wb : World (CacheT := CacheT) (Env := Env) (P := P),
            Picker (conf (inst wa)) = Picker (conf (inst w)) →
            Cache (conf (inst wa)) = Cache (conf (inst wb)) →
            env wa = env wb →
            let a := range_append GetRateLimits_body reqs [] wa in
            let b := range_append GetPeerRateLimits_body reqs [] wb in
            Forall2 same_or_wrapped a.1 b.1
            ∧ Cache (conf (inst a.2)) = Cache (conf (inst b.2))
            ∧ env a.2 = env b.2); [|by apply Hgen].
  induction reqs as [|req rest IH]; intros wa wb Hp Hc He.
  - simpl. split; [constructor|done].
  - cbv zeta. rewrite !range_append_cons. cbn [fst snd].
    destruct (Hown req) as (Hk & Hns & peer & Hget & Hpo);
      [apply list_elem_of_here|].
    rewrite <- Hp in Hget.
    destruct (bodies_agree req wa wb peer Hk Hns Hget Hpo Hc He)
      as (Hsame & Hc' & He').
    destruct (IH (λ q Hq, Hown q (list_elem_of_further _ _ _ Hq))
                (GetRateLimits_body req wa).2
                (GetPeerRateLimits_body req wb).2) as (Hall & Hc2 & He2);
      [by rewrite body_Picker|done..|].
    split; [by constructor|done].
Qed.

(** ** More on membership rebuilds *)

Lemma dial_all_addresses (peers : list string) (e : Env) :
  (dial_all peers e).1.*1 = peers.
Proof.
  revert e. induction peers as [|peer rest IH]; intros e; simpl; [done|].
  destruct (NewPeerClient peer e) as [res e1].
  specialize (IH e1). destruct (dial_all rest e1) as [out e2].
  simpl in *. by f_equal.
Qed.

Lemma failed_sublist (out : list (string * (PeerClient + error))) :
  failed out `sublist_of` out.*1.
Proof.
  unfold failed. induction out as [|[a [h|err]] out IH]; simpl.
  - constructor.
  - by apply sublist_cons.
  - by apply sublist_skip.
Qed.

Lemma connected_failed_length (s : Instance (CacheT := CacheT) (P := P))
    (out : list (string * (PeerClient + error))) :
  (length (connected s out) + length (failed out))%nat = length out.
Proof.
  unfold connected, failed.
  induction out as [|[a [h|err]] out IH]; simpl; [done| |].
  - f_equal. exact IH.
  - rewrite Nat.add_succ_r. f_equal. exact IH.
Qed.

(** X11: a rebuild in which every address connects sets the status to
    healthy but does not clear the message: after a rebuild with failures
    followed by a clean one, the health still carries the message of the
    first, naming every address that had failed. *)
Theorem updatePeers_clean_rebuild_keeps_message (c1 c2 : PeerConfig) w :
  let w1 := (updatePeers c1 w).2 in
  let w2 := (updatePeers c2 w1).2 in
  failed (dial_all (Peers c2) (env w1)).1 = [] →
  Status (health (inst w2)) = Healthy
  ∧ Message (health (inst w2)) = Message (health (inst w1))
  ∧ ∀ a, a ∈ failed (dial_all (Peers c1) (env w)).1 →
         contains (Message (health (inst w2))) a.
Proof.
  intros w1 w2 Hclean.
  destruct (updatePeers_run c1 w) as (_ & _ & Hm1 & _).
  destruct (updatePeers_run c2 w1) as (_ & Hs2 & Hm2 & _).
  fold w1 in Hm1. fold w2 in Hs2, Hm2.
  rewrite decide_True in Hs2, Hm2 by done.
  split; [done|]. split; [done|].
  intros a Ha. rewrite Hm2, Hm1. rewrite decide_False.
  - apply (contains_Join _ _ (updatePeers_failure a)).
    + apply list_elem_of_fmap. by exists a.
    + apply contains_failure.
  - intros Hnil. rewrite Hnil in Ha. by apply elem_of_nil in Ha.
Qed.

(** X12: when some address fails to connect, the message is made of one
    sentence per failed address, in the order of the membership list,
    joined by ["|"]. *)
Theorem updatePeers_message (c : PeerConfig) w :
  let fs := failed (dial_all (Peers c) (env w)).1 in
  fs ≠ [] →
  Message (health (inst (updatePeers c w).2))
    = Join (updatePeers_failure <$> fs) "|"
  ∧ fs `sublist_of` Peers c.
Proof.
  intros fs Hfs.
  destruct (updatePeers_run c w) as (_ & _ & Hm & _).
  rewrite Hm, decide_False by done. split; [done|].
  subst fs. rewrite <- (dial_all_addresses (Peers c) (env w)) at 2.
  apply failed_sublist.
Qed.

(** X13: a rebuild tries to connect to every address of the list, once
    and in order, also to those whose handle it then takes over from the
    current picker; it calls nothing else, and it leaves the cache and the
    advertise address alone. *)
Theorem updatePeers_dials_every_address (c : PeerConfig) w :
  let out := (dial_all (Peers c) (env w)).1 in
  let w' := (updatePeers c w).2 in
  calls w'
    = calls w
      ++ ((λ o, CallNewPeerClient o.1
                  match o.2 with inl _ => true | inr _ => false end) <$> out)
  ∧ out.*1 = Peers c
  ∧ Cache (conf (inst w')) = Cache (conf (inst w))
  ∧ AdvertiseAddress (conf (inst w')) = AdvertiseAddress (conf (inst w)).
Proof.
  intros out w'. subst w'.
  unfold updatePeers, bind at 1, self, bind. rewrite updatePeers_loop_run.
  cbn [fst snd]. unfold updatePeers_commit. simpl.
  split; [done|]. split; [apply dial_all_addresses|done].
Qed.

(** X14: for a picker whose size counts the handles added since [New],
    the size of the picker a rebuild installs is the number of addresses
    listed minus the number that failed to connect; an address listed
    twice counts twice. *)
Theorem updatePeers_size (c : PeerConfig) w :
  (∀ p, PeerPicker.Size (PeerPicker.New p) = 0) →
  (∀ p h, PeerPicker.Size (PeerPicker.Add p h) = PeerPicker.Size p + 1) →
  PeerPicker.Size (Picker (conf (inst (updatePeers c w).2)))
    = Z.of_nat (length (Peers c))
      - Z.of_nat (length (failed (dial_all (Peers c) (env w)).1)).
Proof.
  intros HNew HAdd.
  destruct (updatePeers_run c w) as (-> & _).
  rewrite Size_foldl_Add, HNew by done.
  pose proof (connected_failed_length (inst w) (dial_all (Peers c) (env w)).1)
    as Hlen.
  rewrite dial_all_length in Hlen. lia.
Qed.

(** X15: when no address of the list connects, and so also for an empty
    list, the picker installed is the empty one [New()] returns. *)
Theorem updatePeers_none_connected (c : PeerConfig) w :
  length (failed (dial_all (Peers c) (env w)).1) = length (Peers c) →
  Picker (conf (inst (updatePeers c w).2))
    = PeerPicker.New (Picker (conf (inst w))).
Proof.
  intros Hall.
  destruct (updatePeers_run c w) as (-> & _).
  pose proof (connected_failed_length (inst w) (dial_all (Peers c) (env w)).1)
    as Hlen.
  rewrite dial_all_length in Hlen.
  destruct (connected _ _) as [|h l]; [done|]. simpl in Hlen. lia.
Qed.

(** X16: the peer count is the size of the new picker cut to 32 bits: it
    always lies in the int32 range and differs from the size by a multiple
    of 2^32. *)
Theorem updatePeers_PeerCount_int32 (c : PeerConfig) w :
  let w' := (updatePeers c w).2 in
  - 2 ^ 31 ≤ PeerCount (health (inst w')) < 2 ^ 31
  ∧ (PeerCount (health (inst w')) - PeerPicker.Size (Picker (conf (inst w'))))
      `mod` 2 ^ 32 = 0.
Proof.
  intros w'. destruct (updatePeers_run c w) as (Hp & _ & _ & Hn & _).
  fold w' in Hp, Hn. rewrite Hn, <- Hp. unfold int32.
  set (x := PeerPicker.Size (Picker (conf (inst w')))).
  pose proof (Z.mod_pos_bound (x + 2 ^ 31) (2 ^ 32) ltac:(lia)) as Hb.
  pose proof (Z.div_mod (x + 2 ^ 31) (2 ^ 32) ltac:(lia)) as Hdm.
  set (m := (x + 2 ^ 31) `mod` 2 ^ 32) in *.
  set (q := (x + 2 ^ 31) `div` 2 ^ 32) in *.
  split; [lia|].
  replace (m - 2 ^ 31 - x) with (- q * 2 ^ 32) by lia.
  apply Z.mod_mul. lia.
Qed.

(** ** HealthCheck *)

(** X17: [HealthCheck] returns the stored health with a nil error and
    changes nothing; after a rebuild it reports unhealthy exactly when an
    address failed to connect in that rebuild, healthy otherwise, with the
    peer count of the picker just installed. *)
Theorem HealthCheck_after_updatePeers (c : PeerConfig) (r : HealthCheckReq) w :
  let fs := failed (dial_all (Peers c) (env w)).1 in
  let w' := (updatePeers c w).2 in
  ∃ h,
    HealthCheck r w' = (Some h, None, w')
    ∧ (Status h = UnHealthy ↔ fs ≠ [])
    ∧ (Status h = Healthy ↔ fs = [])
    ∧ PeerCount h = int32 (PeerPicker.Size (Picker (conf (inst w')))).
Proof.
  intros fs w'. exists (health (inst w')). split; [done|].
  destruct (updatePeers_run c w) as (Hp & Hs & _ & Hn & _).
  fold w' fs in Hp, Hs, Hn. rewrite Hs, Hn, <- Hp.
  destruct (decide (fs = [])); repeat split; done.
Qed.

(** ** retry *)

(** X18: with a number of attempts that is zero or negative, [retry]
    returns nil at once: the callback is not run and the world is
    untouched, whatever the callback. *)
Theorem retry_no_attempts (attempts d : Z) (callback : M (option error)) w :
  attempts ≤ 0 →
  retry attempts d callback w = (None, w).
Proof.
  intros Hn. unfold retry. destruct attempts as [|p|p]; [done|lia|done].
Qed.

Lemma retry_loop_trace (n : nat) (d : Z) (err : option error) w :
  let res := retry_loop n d Start_probe err w in
  ∃ k : nat,
    let fails := mjoin (replicate k [CallHealthCheck false; CallSleep d]) in
    (calls res.2 = calls w ++ fails ++ [CallHealthCheck true]
     ∧ (k < n)%nat ∧ res.1 = None)
    ∨ (calls res.2 = calls w ++ fails
       ∧ k = n
       ∧ (n = 0%nat → res.1 = err)
       ∧ (n ≠ 0%nat → res.1 ≠ None)).
Proof.
  revert err w. induction n as [|n IH]; intros err w.
  - exists 0%nat. right. simpl. by rewrite app_nil_r.
  - cbv zeta. simpl. unfold bind.
    destruct (Start_probe w) as [res w1] eqn:Hp.
    unfold Start_probe, bind, on_env, log, ret in Hp. simpl in Hp.
    destruct (loopback_HealthCheck (env w)) as [[e|] e1]; simplify_eq/=.
    + unfold Sleep, log. simpl.
      destruct (IH (Some e)
        {| inst := inst w; env := e1;
           calls := ((calls w ++ [CallHealthCheck false])
                     ++ [CallSleep d]) |})
        as (k & [(Hc & Hk & Hr)|(Hc & Hk & Hz & Hn)]);
        simpl in *; exists (S k); [left|right].
      * split; [by rewrite Hc, <- !app_assoc|]. split; [lia|done].
      * split; [by rewrite Hc, <- !app_assoc|]. split; [lia|].
        split; [done|]. intros _. destruct n as [|n].
        -- by rewrite Hz.
        -- by apply Hn.
    + exists 0%nat. left. simpl. split; [done|]. split; [lia|done].
Qed.

(** X19: [retry] around the loopback probe of [Start], for any number of
    attempts: the log gains a run of failed probes, each followed by a
    sleep of [d], ended by one successful probe or by running out of
    attempts.  It stops at the first success and returns nil; out of
    attempts it has slept after the last failure too, and returns nil only
    if no attempt was allowed. *)
Theorem retry_probe_trace (attempts d : Z) w :
  let res := retry attempts d Start_probe w in
  ∃ k : nat,
    let fails := mjoin (replicate k [CallHealthCheck false; CallSleep d]) in
    (calls res.2 = calls w ++ fails ++ [CallHealthCheck true]
     ∧ Z.of_nat k < attempts ∧ res.1 = None)
    ∨ (calls res.2 = calls w ++ fails
       ∧ Z.of_nat k = Z.max 0 attempts
       ∧ (res.1 = None ↔ attempts ≤ 0)).
Proof.
  intros res. subst res. unfold retry.
  destruct (retry_loop_trace (Z.to_nat attempts) d None w)
    as (k & [(Hc & Hk & Hr)|(Hc & Hk & Hz & Hn)]); exists k; [left|right].
  - split; [done|]. split; [lia|done].
  - split; [done|]. split; [lia|]. split.
    + intros Hr. destruct (decide (Z.to_nat attempts = 0%nat)) as [|Hne];
        [lia|]. by destruct (Hn Hne).
    + intros Hle. apply Hz. lia.
Qed.

(** ** Start: the ways it fails *)

Ltac start_run :=
  unfold Start, Start_wait, retry; rewrite ?Nat2Z.id;
  change (Z.to_nat 2) with 2%nat;
  unfold Start_probe, Sleep, retry_loop, bind, ret, log, on_cache, on_env, self;
  simpl.

Ltac start_cases :=
  destruct (Serve_returned_after _) as [|[|[|finished]]]; simpl;
  match goal with
  | |- context [loopback_HealthCheck ?e1] =>
      destruct (loopback_HealthCheck e1) as [[?|] ?] eqn:?; simpl;
      [match goal with
       | |- context [loopback_HealthCheck ?e2] =>
           destruct (loopback_HealthCheck e2) as [[?|] ?] eqn:?; simpl
       end|]
  end.

(** X20: when the cache does not start, [Start] returns its error under
    ["failed to start cache"] and has called nothing else: no metrics, no
    server, no probe, no registration. *)
Theorem Start_cache_failure w e (c : CacheT) :
  Cache_Start (Cache (conf (inst w))) = (Some e, c) →
  (Start w).1 = Some (Wrap e "failed to start cache")
  ∧ calls (Start w).2 = calls w ++ [CallCacheStart]
  ∧ env (Start w).2 = env w.
Proof. intros Hc. start_run. by rewrite Hc. Qed.

(** X21: when the metrics collector does not start, [Start] returns its
    error under ["failed to start metrics collector"]; the cache has been
    started, the server has not. *)
Theorem Start_metrics_failure w e (c : CacheT) (e1 : Env) :
  Cache_Start (Cache (conf (inst w))) = (None, c) →
  Metrics_Start (env w) = (Some e, e1) →
  (Start w).1 = Some (Wrap e "failed to start metrics collector")
  ∧ calls (Start w).2 = calls w ++ [CallCacheStart; CallMetricsStart]
  ∧ Cache (conf (inst (Start w).2)) = c.
Proof.
  intros Hc Hm. start_run. rewrite Hc. simpl. rewrite Hm. simpl.
  by rewrite <- app_assoc.
Qed.

(** X22: when [server.Serve] returns an error before the probe's result
    is read, [Start] returns that error under ["while waiting for server
    to pass health check"], whatever the probes gave, and does not
    register. *)
Theorem Start_serve_failure w err (c : CacheT) (e1 : Env) :
  Cache_Start (Cache (conf (inst w))) = (None, c) →
  Metrics_Start (env w) = (None, e1) →
  (∀ e, Serve_returned e = Some (Some err)) →
  (Start w).1
    = Some (Wrap err "while waiting for server to pass health check")
  ∧ ∃ cs, calls (Start w).2 = calls w ++ cs
          ∧ ∀ a, CallPeerSyncerStart a ∉ cs.
Proof.
  intros Hc Hm Hs. start_run. rewrite Hc. simpl. rewrite Hm. simpl.
  start_cases; rewrite Hs; simpl; (split; [done|]);
    eexists; rewrite <- ?app_assoc;
    (split; [first [reflexivity | symmetry; apply app_nil_r]|]);
    intros a Hin;
    repeat (apply elem_of_cons in Hin as [Hin|Hin]; [discriminate Hin|]);
    by apply elem_of_nil in Hin.
Qed.

(** X23: when both probes fail and the server is still serving, [Start]
    reports the error of the second probe, not of the first, after having
    slept twice, and does not register. *)
Theorem Start_reports_last_probe_error w (c : CacheT) (e1 e2 e3 : Env) a b :
  Cache_Start (Cache (conf (inst w))) = (None, c) →
  Metrics_Start (env w) = (None, e1) →
  loopback_HealthCheck e1 = (Some a, e2) →
  loopback_HealthCheck e2 = (Some b, e3) →
  Serve_returned e3 = None →
  (Start w).1 = Some (Wrap b "while waiting for server to pass health check")
  ∧ calls (Start w).2
    = calls w ++ [CallCacheStart; CallMetricsStart; CallServe;
                  CallHealthCheck false; CallSleep (Millisecond * 500);
                  CallHealthCheck false; CallSleep (Millisecond * 500)].
Proof.
  intros Hc Hm H1 H2 Hs. start_run. rewrite Hc. simpl. rewrite Hm. simpl.
  rewrite H1. simpl. rewrite H2. simpl. rewrite Hs. simpl.
  by rewrite <- !app_assoc.
Qed.

(** X24: when a probe has succeeded and the server is still serving but
    the membership mechanism does not start, [Start] returns its error
    under ["failed to sync configs with other peers"]; the registration
    was its last call, so the server it started is left running. *)
Theorem Start_registration_failure w (c : CacheT) (e1 e2 e3 : Env) e :
  Cache_Start (Cache (conf (inst w))) = (None, c) →
  Metrics_Start (env w) = (None, e1) →
  loopback_HealthCheck e1 = (None, e2) →
  Serve_returned e2 = None →
  PeerSyncer_Start (AdvertiseAddress (conf (inst w))) e2 = (Some e, e3) →
  (Start w).1 = Some (Wrap e "failed to sync configs with other peers")
  ∧ calls (Start w).2
    = calls w ++ [CallCacheStart; CallMetricsStart; CallServe;
                  CallHealthCheck true;
                  CallPeerSyncerStart (AdvertiseAddress (conf (inst w)))].
Proof.
  intros Hc Hm H1 Hs Hr. start_run. rewrite Hc. simpl. rewrite Hm. simpl.
  rewrite H1. simpl. rewrite Hs. simpl. rewrite Hr. simpl.
  by rewrite <- !app_assoc.
Qed.

(** X25: when [server.Serve] has already returned nil by the time [Start]
    reads the channel, which it does once the server is stopped, [Start]
    takes that nil for the verdict: it registers under the advertise
    address whatever the probes gave, and fails only if the registration
    does. *)
Theorem Start_serve_returned_nil w (c : CacheT) (e1 : Env) :
  Cache_Start (Cache (conf (inst w))) = (None, c) →
  Metrics_Start (env w) = (None, e1) →
  (∀ e, Serve_returned e = Some None) →
  (∃ cs, calls (Start w).2 = calls w ++ cs
         ∧ CallPeerSyncerStart (AdvertiseAddress (conf (inst w))) ∈ cs)
  ∧ ((Start w).1 = None
     ∨ ∃ e, (Start w).1
            = Some (Wrap e "failed to sync configs with other peers")).
Proof.
  intros Hc Hm Hs. start_run. rewrite Hc. simpl. rewrite Hm. simpl.
  start_cases; rewrite Hs; simpl;
    destruct (PeerSyncer_Start _ _) as [[e5|] env5]; simpl;
    (split; [eexists; rewrite <- ?app_assoc; split; [reflexivity|];
             repeat first [by apply list_elem_of_here
                          | apply list_elem_of_further]
            | eauto]).
Qed.

(** X26: [Start] writes nothing of the instance but the cache it starts:
    health, picker and advertise address are as before, and the log only
    grows. *)
Theorem Start_keeps_instance w : keeps_instance w (Start w).2.
Proof.
  start_run.
  destruct (Cache_Start _) as [[e0|] c1]; simpl;
    [repeat split; log_grows|].
  destruct (Metrics_Start _) as [[e1|] env1]; simpl;
    [repeat split; log_grows|].
  start_cases;
    (destruct (Serve_returned _) as [[e4|]|]; simpl);
    try (destruct (PeerSyncer_Start _ _) as [[e5|] env5]; simpl);
    repeat split; log_grows.
Qed.

End Further.

(** * The statements on the example cluster *)

Import Example.

Example batch_errors :
  match (GetRateLimits batch (world [me; other; down] [])).1.1 with
  | Some resp => Error <$> RateLimits_RateLimits resp
  | None => []
  end
  = [""; "while fetching rate limit 'ns_ab' from peer - 'connection refused'";
     "field 'namespace' cannot be empty"; ""].
Proof. by vm_compute. Qed.

Example batch_calls :
  calls (GetRateLimits batch (world [me; other; down] [])).2
  = [CallPickerGet "n_a"; CallGetRateLimit (item "n" "a");
     CallPickerGet "ns_ab"; CallPeerGetPeerRateLimit "10.0.0.9:81" (item "ns" "ab");
     CallPickerGet "ns_a"; CallPeerGetPeerRateLimit "10.0.0.2:81" (item "ns" "a")].
Proof. by vm_compute. Qed.

Example Start_second_probe_succeeds :
  (Start (world [] [Some "connection refused"; None])).1 = None
  ∧ calls (Start (world [] [Some "connection refused"; None])).2
    = [CallCacheStart; CallMetricsStart; CallServe; CallHealthCheck false;
       CallSleep 500000000; CallHealthCheck true;
       CallPeerSyncerStart "10.0.0.1:81"].
Proof. by vm_compute. Qed.

Example Start_both_probes_fail :
  (Start (world [] [Some "connection refused"; Some "deadline exceeded"; None])).1
  = Some "while waiting for server to pass health check: deadline exceeded"
  ∧ calls (Start (world [] [Some "connection refused";
                            Some "deadline exceeded"; None])).2
    = [CallCacheStart; CallMetricsStart; CallServe; CallHealthCheck false;
       CallSleep 500000000; CallHealthCheck false; CallSleep 500000000].
Proof. by vm_compute. Qed.

Lemma GetRateLimits_one_result_per_item_witness :
  Z.of_nat (length (Requests_Requests batch)) ≤ maxBatchSize
  ∧ ∃ rls w',
      GetRateLimits batch (world [me; other; down] [])
        = (Some {| RateLimits_RateLimits := rls |}, None, w')
      ∧ length rls = 4%nat.
Proof.
  assert (Hlen : Z.of_nat (length (Requests_Requests batch)) ≤ maxBatchSize)
    by (by vm_compute).
  split; [exact Hlen|].
  destruct (GetRateLimits_one_result_per_item batch
              (world [me; other; down] []) Hlen) as (rls & w' & Hrun & Hn & _).
  exists rls, w'. split; [exact Hrun | exact Hn].
Defined.

Lemma Start_verifies_unless_stopped_witness :
  ∃ cs r w',
    Start (world [] [Some "connection refused"; None]) = (r, w')
    ∧ calls w' = cs
    ∧ (length (probes cs) ≤ 2)%nat
    ∧ probes cs = [false; true].
Proof.
  destruct (Start_verifies_unless_stopped
              (world [] [Some "connection refused"; None]))
    as (cs & r & w' & Hrun & Hcs & Hn & _ & _ & _ & _ & Hprobes).
  - intros e. simpl. discriminate.
  - exists cs, r, w'. split; [exact Hrun|]. split; [exact Hcs|].
    split; [exact Hn|].
    apply (Hprobes (λ _, eq_refl) 0 [Some "connection refused"; None]);
      reflexivity.
Defined.

(** C2: the code does not keep the claim when [server.Serve] returns nil
    before the probes have passed, as it does once the server is stopped.
    [Start] reads that nil from [errs], takes it for a passed health
    check and registers under the advertise address, returning nil: in
    the first run before any probe has finished, in the second after both
    probes have failed. *)
Theorem Start_registers_without_verification :
  let script := [Some "connection refused"; Some "deadline exceeded"] in
  let early :=
    Start (Collaborators0 := Faulty.cluster None None None (Some None))
      (world [] script) in
  let late :=
    Start (Collaborators0 := Faulty.cluster_after 2 None None None (Some None))
      (world [] script) in
  early.1 = None
  ∧ calls early.2
    = [CallCacheStart; CallMetricsStart; CallServe;
       CallPeerSyncerStart "10.0.0.1:81"]
  ∧ late.1 = None
  ∧ calls late.2
    = [CallCacheStart; CallMetricsStart; CallServe;
       CallHealthCheck false; CallSleep 500000000;
       CallHealthCheck false; CallSleep 500000000;
       CallPeerSyncerStart "10.0.0.1:81"]
  ∧ probes (calls early.2) = []
  ∧ probes (calls late.2) = [false; false].
Proof. vm_compute. by repeat split. Qed.

Lemma updatePeers_commits_and_reports_witness :
  let w' := (updatePeers members (world [] [])).2 in
  Status (health (inst w')) = UnHealthy
  ∧ contains (Message (health (inst w'))) "10.0.0.9:81"
  ∧ PeerCount (health (inst w')) = 2.
Proof.
  intros w'.
  destruct (updatePeers_commits_and_reports members (world [] []))
    as (_ & Hs & _ & Hm & Hn & _).
  - by vm_compute.
  - fold w' in Hs, Hm, Hn. split; [|split].
    + apply Hs. exists "10.0.0.9:81". vm_compute. apply list_elem_of_here.
    + apply Hm. vm_compute. apply list_elem_of_here.
    + rewrite Hn. by vm_compute.
Defined.

Lemma GetRateLimits_routes_by_owner_witness :
  (∃ rls w' rl,
     GetRateLimits batch (world [me; other; down] [])
       = (Some {| RateLimits_RateLimits := rls |}, None, w')
     ∧ rls !! 0%nat = Some rl ∧ Metadata rl !! "owner" = None)
  ∧ (∃ rls w' rl,
       GetRateLimits batch (world [me; other; down] [])
         = (Some {| RateLimits_RateLimits := rls |}, None, w')
       ∧ rls !! 3%nat = Some rl
       ∧ Metadata rl !! "owner" = Some "10.0.0.2:81").
Proof.
  split.
  - destruct (GetRateLimits_routes_by_owner batch (world [me; other; down] [])
                0 (item "n" "a") me)
      as (rls & w' & rl & Hrun & Hrl & Hlocal & _);
      [by vm_compute..|].
    destruct (Hlocal eq_refl) as (_ & _ & _ & _ & Hmeta).
    exists rls, w', rl. split; [exact Hrun|]. split; [exact Hrl|].
    apply Hmeta. intros out Hout. vm_compute in Hout.
    injection Hout as <-. by vm_compute.
  - destruct (GetRateLimits_routes_by_owner batch (world [me; other; down] [])
                3 (item "ns" "a") other)
      as (rls & w' & rl & Hrun & Hrl & _ & Hremote);
      [by vm_compute..|].
    destruct (Hremote eq_refl) as (_ & _ & _ & _ & Hmeta).
    exists rls, w', rl. split; [exact Hrun|]. split; [exact Hrl | exact Hmeta].
Defined.

Lemma oversized_batch_rejected_witness :
  Z.of_nat (length (replicate 1001 (item "ns" "k"))) > maxBatchSize
  ∧ (GetRateLimits {| Requests_Requests := replicate 1001 (item "ns" "k") |}
       (world [me; other; down] [])).1
    = (None,
       Some {| code := OutOfRange;
               message := "Requests.RateLimits list too large; max size is '1000'" |}).
Proof.
  assert (Hlen : Z.of_nat (length (replicate 1001 (item "ns" "k"))) > maxBatchSize)
    by (by vm_compute).
  split; [exact Hlen|].
  destruct (oversized_batch_rejected (replicate 1001 (item "ns" "k"))
              (world [me; other; down] []) Hlen) as [Hrun _].
  by rewrite Hrun.
Defined.

Lemma GetRateLimits_rejects_empty_fields_witness :
  ∃ rls w' rl,
    GetRateLimits batch (world [me; other; down] [])
      = (Some {| RateLimits_RateLimits := rls |}, None, w')
    ∧ rls !! 2%nat = Some rl
    ∧ rl = RateLimit_Error "field 'namespace' cannot be empty".
Proof.
  destruct (GetRateLimits_rejects_empty_fields batch
              (world [me; other; down] []) 2 (item "" "c"))
    as (rls & w' & rl & Hrun & Hrl & _ & _ & Hns & _);
    [by vm_compute | by vm_compute | by right |].
  exists rls, w', rl. split; [exact Hrun|]. split; [exact Hrl|].
  by apply Hns.
Defined.

Lemma ListPicker_Size_New (p : list PeerClient) :
  PeerPicker.Size (PeerPicker.New p) = 0.
Proof. reflexivity. Qed.

Lemma ListPicker_Size_Add (p : list PeerClient) (h : PeerClient) :
  PeerPicker.Size (PeerPicker.Add p h) = PeerPicker.Size p + 1.
Proof. simpl. rewrite length_app. simpl. lia. Qed.

Lemma updatePeers_idempotent_witness :
  let w1 := (updatePeers live_members (world [] [])).2 in
  let w2 := (updatePeers live_members w1).2 in
  PeerPicker.Size (Picker (conf (inst w1)))
    = PeerPicker.Size (Picker (conf (inst w2)))
  ∧ Status (health (inst w1)) = Healthy
  ∧ Status (health (inst w2)) = Healthy.
Proof.
  intros w1 w2.
  destruct (updatePeers_idempotent live_members (world [] [])
              ListPicker_Size_New ListPicker_Size_Add)
    as (Hsize & _ & Hs1 & Hs2); [by vm_compute..|].
  split; [exact Hsize|]. split; [exact Hs1 | exact Hs2].
Defined.

Lemma GetPeerRateLimits_applies_algorithm_directly_witness :
  ∃ rls w',
    GetPeerRateLimits
      {| GetPeerRateLimitsReq_Requests := [item "" ""; item "ns" ""] |}
      (world [me; other; down] [])
      = (Some {| GetPeerRateLimitsResp_RateLimits := rls |}, None, w')
    ∧ length rls = 2%nat.
Proof.
  destruct (GetPeerRateLimits_applies_algorithm_directly
              {| GetPeerRateLimitsReq_Requests := [item "" ""; item "ns" ""] |}
              (world [me; other; down] []))
    as (rls & w' & Hrun & Hn & _); [by vm_compute|].
  exists rls, w'. split; [exact Hrun | exact Hn].
Defined.

Lemma GetRateLimits_remote_metadata_witness :
  (∃ rls w' rl,
     GetRateLimits batch (world [me; other; down] [])
       = (Some {| RateLimits_RateLimits := rls |}, None, w')
     ∧ rls !! 1%nat = Some rl
     ∧ Metadata rl = {[ "owner" := "10.0.0.9:81" ]})
  ∧ (∃ rls w' rl,
       GetRateLimits batch (world [me; other; down] [])
         = (Some {| RateLimits_RateLimits := rls |}, None, w')
       ∧ rls !! 3%nat = Some rl
       ∧ Metadata rl = {[ "owner" := "10.0.0.2:81" ]}).
Proof.
  split.
  - destruct (GetRateLimits_remote_metadata batch (world [me; other; down] [])
                1 (item "ns" "ab") down)
      as (rls & w' & rl & Hrun & Hrl & Hmeta & _); [by vm_compute..|].
    exists rls, w', rl. split; [exact Hrun|]. split; [exact Hrl | exact Hmeta].
  - destruct (GetRateLimits_remote_metadata batch (world [me; other; down] [])
                3 (item "ns" "a") other)
      as (rls & w' & rl & Hrun & Hrl & Hmeta & _); [by vm_compute..|].
    exists rls, w', rl. split; [exact Hrun|]. split; [exact Hrl | exact Hmeta].
Defined.

(** C8 as stated asks for a non-nil response: the response is nil. *)
Lemma UpdatePeerGlobals_response_is_nil :
  ¬ ∃ resp,
      (UpdatePeerGlobals Build_UpdatePeerGlobalsReq
         (world [me; other; down] [])).1.1 = Some resp.
Proof. intros [resp Hresp]. vm_compute in Hresp. discriminate Hresp. Qed.

(** * The further properties on the example cluster *)

Lemma GetRateLimits_app_witness :
  ∃ rls1 rls2 w1 w2,
    GetRateLimits {| Requests_Requests := [item "n" "a"; item "ns" "ab"] |}
      (world [me; other; down] [])
      = (Some {| RateLimits_RateLimits := rls1 |}, None, w1)
    ∧ GetRateLimits {| Requests_Requests := [item "" "c"; item "ns" "a"] |} w1
      = (Some {| RateLimits_RateLimits := rls2 |}, None, w2)
    ∧ GetRateLimits batch (world [me; other; down] [])
      = (Some {| RateLimits_RateLimits := rls1 ++ rls2 |}, None, w2).
Proof.
  apply (GetRateLimits_app [item "n" "a"; item "ns" "ab"]
           [item "" "c"; item "ns" "a"] (world [me; other; down] [])).
  by vm_compute.
Defined.

Lemma GetPeerRateLimits_app_witness :
  ∃ rls1 rls2 w1 w2,
    GetPeerRateLimits {| GetPeerRateLimitsReq_Requests := [item "n" "a"] |}
      (world [me; other; down] [])
      = (Some {| GetPeerRateLimitsResp_RateLimits := rls1 |}, None, w1)
    ∧ GetPeerRateLimits {| GetPeerRateLimitsReq_Requests := [item "" ""] |} w1
      = (Some {| GetPeerRateLimitsResp_RateLimits := rls2 |}, None, w2)
    ∧ GetPeerRateLimits
        {| GetPeerRateLimitsReq_Requests := [item "n" "a"] ++ [item "" ""] |}
        (world [me; other; down] [])
      = (Some {| GetPeerRateLimitsResp_RateLimits := rls1 ++ rls2 |}, None, w2).
Proof.
  apply (GetPeerRateLimits_app [item "n" "a"] [item "" ""]
           (world [me; other; down] [])).
  by vm_compute.
Defined.

Lemma GetRateLimits_no_peer_found_witness :
  ∃ rls w',
    GetRateLimits batch (world [] [])
      = (Some {| RateLimits_RateLimits := rls |}, None, w')
    ∧ rls !! 0%nat
      = Some (RateLimit_Error
                "while finding peer that owns rate limit 'n_a' - 'unable to pick a peer; pool is empty'").
Proof.
  destruct (GetRateLimits_no_peer_found batch (world [] []) 0 (item "n" "a")
              "unable to pick a peer; pool is empty")
    as (rls & w' & Hrun & Hrl & _); [by vm_compute..|].
  exists rls, w'. split; [exact Hrun | exact Hrl].
Defined.

Lemma GetPeerRateLimits_invalid_algorithm_witness :
  let req := {| Namespace := "n"; UniqueKey := "a"; Algorithm := 7;
                Params := [] |} in
  ∃ rls w',
    GetPeerRateLimits {| GetPeerRateLimitsReq_Requests := [req] |}
      (world [me; other; down] [])
      = (Some {| GetPeerRateLimitsResp_RateLimits := rls |}, None, w')
    ∧ rls !! 0%nat
      = Some (RateLimit_Error "invalid rate limit algorithm '7'").
Proof.
  intros req.
  destruct (GetPeerRateLimits_invalid_algorithm
              {| GetPeerRateLimitsReq_Requests := [req] |}
              (world [me; other; down] []) 0 req)
    as (rls & w' & Hrun & Hrl & _); [by vm_compute..|].
  exists rls, w'. split; [exact Hrun | exact Hrl].
Defined.

Lemma GetRateLimits_invalid_algorithm_witness :
  let req := {| Namespace := "n"; UniqueKey := "a"; Algorithm := 7;
                Params := [] |} in
  ∃ rls w',
    GetRateLimits {| Requests_Requests := [req] |} (world [me; other; down] [])
      = (Some {| RateLimits_RateLimits := rls |}, None, w')
    ∧ rls !! 0%nat
      = Some (RateLimit_Error
                "while applying rate limit for 'n_a' - 'invalid rate limit algorithm '7''").
Proof.
  intros req.
  destruct (GetRateLimits_invalid_algorithm
              {| Requests_Requests := [req] |}
              (world [me; other; down] []) 0 req me)
    as (rls & w' & Hrun & Hrl & _); [by vm_compute..|].
  exists rls, w'. split; [exact Hrun | exact Hrl].
Defined.

Lemma ListPicker_Get_single (c : PeerClient) (key : string) :
  PeerPicker.Get [c] key = inl c.
Proof.
  change (PeerPicker.Get [c] key) with (ListPicker_Get [c] key).
  unfold ListPicker_Get. change (length [c]) with 1%nat.
  by rewrite Nat.mod_1_r.
Qed.

Lemma GetRateLimits_all_owned_calls_no_peer_witness :
  env (GetRateLimits batch (world [me] [])).2 = [].
Proof.
  destruct (GetRateLimits_all_owned_calls_no_peer batch (world [me] []))
    as [He _].
  - intros key peer. simpl. rewrite ListPicker_Get_single.
    intros Heq. injection Heq as <-. reflexivity.
  - exact He.
Defined.

Lemma GetRateLimits_none_owned_keeps_cache_witness :
  Cache (conf (inst (GetRateLimits batch (world [other] [])).2)) = 0.
Proof.
  destruct (GetRateLimits_none_owned_keeps_cache batch (world [other] []))
    as [Hc _].
  - intros key peer. simpl. rewrite ListPicker_Get_single.
    intros Heq. injection Heq as <-. reflexivity.
  - exact Hc.
Defined.

Lemma GetRateLimits_agrees_with_GetPeerRateLimits_witness :
  ∃ rls1 rls2 w1 w2,
    GetRateLimits {| Requests_Requests := [item "n" "a"; item "n" "b"] |}
      (world [me] [])
      = (Some {| RateLimits_RateLimits := rls1 |}, None, w1)
    ∧ GetPeerRateLimits
        {| GetPeerRateLimitsReq_Requests := [item "n" "a"; item "n" "b"] |}
        (world [me] [])
      = (Some {| GetPeerRateLimitsResp_RateLimits := rls2 |}, None, w2)
    ∧ Forall2 same_or_wrapped rls1 rls2
    ∧ Cache (conf (inst w1)) = Cache (conf (inst w2))
    ∧ env w1 = env w2.
Proof.
  apply (GetRateLimits_agrees_with_GetPeerRateLimits
           [item "n" "a"; item "n" "b"] (world [me] [])).
  - by vm_compute.
  - intros req Hreq. simpl. rewrite ListPicker_Get_single.
    apply elem_of_cons in Hreq as [->|Hreq];
      [|apply list_elem_of_singleton in Hreq as ->];
      (split; [done|]; split; [done|]; by exists me).
Defined.

Lemma updatePeers_clean_rebuild_keeps_message_witness :
  let w1 := (updatePeers members (world [] [])).2 in
  let w2 := (updatePeers live_members w1).2 in
  Status (health (inst w2)) = Healthy
  ∧ contains (Message (health (inst w2))) "10.0.0.9:81".
Proof.
  intros w1 w2.
  destruct (updatePeers_clean_rebuild_keeps_message members live_members
              (world [] [])) as (Hs & _ & Hm); [by vm_compute|].
  split; [exact Hs|]. apply Hm. vm_compute. apply list_elem_of_here.
Defined.

Lemma updatePeers_message_witness :
  Message (health (inst (updatePeers members (world [] [])).2))
  = "failed to connect to peer '10.0.0.9:81'; consistent hash is incomplete".
Proof.
  destruct (updatePeers_message members (world [] [])) as [Hm _];
    [by vm_compute|].
  rewrite Hm. by vm_compute.
Defined.

Lemma updatePeers_size_witness :
  PeerPicker.Size (Picker (conf (inst (updatePeers members (world [] [])).2)))
  = 2.
Proof.
  rewrite (updatePeers_size members (world [] [])
             ListPicker_Size_New ListPicker_Size_Add).
  by vm_compute.
Defined.

Lemma updatePeers_none_connected_witness :
  Picker (conf (inst (updatePeers {| Peers := ["10.0.0.9:81"; "10.0.0.9:81"] |}
                        (world [me; other] [])).2))
  = [].
Proof.
  rewrite (updatePeers_none_connected
             {| Peers := ["10.0.0.9:81"; "10.0.0.9:81"] |}
             (world [me; other] [])); [reflexivity | by vm_compute].
Defined.

Lemma retry_no_attempts_witness :
  retry (-1) (Millisecond * 500) Start_probe (world [] [None])
  = (None, world [] [None]).
Proof. apply retry_no_attempts. lia. Defined.

Lemma Start_cache_failure_witness :
  (Start (Collaborators0 := Faulty.cluster (Some "disk full") None None None)
     (world [] [None])).1
  = Some "failed to start cache: disk full".
Proof.
  destruct (Start_cache_failure
              (Collaborators0 := Faulty.cluster (Some "disk full") None None None)
              (world [] [None]) "disk full" 0) as [Hr _]; [reflexivity|].
  rewrite Hr. reflexivity.
Defined.

Lemma Start_metrics_failure_witness :
  (Start (Collaborators0 := Faulty.cluster None (Some "port in use") None None)
     (world [] [None])).1
  = Some "failed to start metrics collector: port in use".
Proof.
  destruct (Start_metrics_failure
              (Collaborators0 := Faulty.cluster None (Some "port in use") None None)
              (world [] [None]) "port in use" 0 [None]) as [Hr _];
    [reflexivity..|].
  rewrite Hr. reflexivity.
Defined.

Lemma Start_serve_failure_witness :
  (Start (Collaborators0 :=
            Faulty.cluster None None None (Some (Some "listener closed")))
     (world [] [None])).1
  = Some "while waiting for server to pass health check: listener closed".
Proof.
  destruct (Start_serve_failure
              (Collaborators0 :=
                 Faulty.cluster None None None (Some (Some "listener closed")))
              (world [] [None]) "listener closed" 0 [None]) as [Hr _];
    [reflexivity..|].
  rewrite Hr. reflexivity.
Defined.

Lemma Start_reports_last_probe_error_witness :
  (Start (world [] [Some "connection refused"; Some "deadline exceeded"])).1
  = Some "while waiting for server to pass health check: deadline exceeded".
Proof.
  destruct (Start_reports_last_probe_error
              (world [] [Some "connection refused"; Some "deadline exceeded"])
              0 [Some "connection refused"; Some "deadline exceeded"]
              [Some "deadline exceeded"] []
              "connection refused" "deadline exceeded") as [Hr _];
    [reflexivity..|].
  rewrite Hr. reflexivity.
Defined.

Lemma Start_registration_failure_witness :
  (Start (Collaborators0 := Faulty.cluster None None (Some "no etcd") None)
     (world [] [None])).1
  = Some "failed to sync configs with other peers: no etcd".
Proof.
  destruct (Start_registration_failure
              (Collaborators0 := Faulty.cluster None None (Some "no etcd") None)
              (world [] [None]) 0 [None] [] [] "no etcd") as [Hr _];
    [reflexivity..|].
  rewrite Hr. reflexivity.
Defined.

Lemma Start_serve_returned_nil_witness :
  ∃ cs,
    calls (Start (Collaborators0 := Faulty.cluster None None None (Some None))
             (world [] [Some "connection refused"; Some "deadline exceeded"])).2
      = cs
    ∧ CallPeerSyncerStart "10.0.0.1:81" ∈ cs.
Proof.
  destruct (Start_serve_returned_nil
              (Collaborators0 := Faulty.cluster None None None (Some None))
              (world [] [Some "connection refused"; Some "deadline exceeded"])
              0 [Some "connection refused"; Some "deadline exceeded"])
    as [(cs & Hcs & Hin) _]; [reflexivity..|].
  exists cs. split; [exact Hcs | exact Hin].
Defined.
